(** * shell-mcp-server: the execution engine, the message framer and the
      dispatcher of [index.js], as a shallow embedding.

    JavaScript strings are modelled as [string]; a character stands for one
    UTF-16 code unit in the range 0..255 and [String.length] for the
    [.length] of the source.  JSON numbers are modelled as integers ([Z]).
    Library functions that the source calls but does not define
    ([JSON.parse], [path.resolve], [spawn], the clock) are Section variables
    or are carried by the events that the runtime delivers. *)

From Stdlib Require Import ZArith Lia Bool Ascii String List.
From Stdlib Require Import Numbers.DecimalString Numbers.DecimalPos.
From stdpp Require Import base option list strings gmap.

Local Open Scope string_scope.
Local Open Scope Z_scope.

(** ** JavaScript strings *)

Module JsString.

(** The code units below 256 that [\s] matches and that [trim] strips:
    TAB, LF, VT, FF, CR, SPACE and NBSP. *)
Definition is_ws (c : ascii) : bool :=
  let n := nat_of_ascii c in
  ((9 <=? n)%nat && (n <=? 13)%nat) || (n =? 32)%nat || (n =? 160)%nat.

Definition is_empty (s : string) : bool :=
  match s with EmptyString => true | String _ _ => false end.

Fixpoint trimStart (s : string) : string :=
  match s with
  | String c s' => if is_ws c then trimStart s' else s
  | EmptyString => EmptyString
  end.

Fixpoint trimEnd (s : string) : string :=
  match s with
  | String c s' =>
      let r := trimEnd s' in
      if is_ws c && is_empty r then EmptyString else String c r
  | EmptyString => EmptyString
  end.

(** [String.prototype.trim] *)
Definition trim (s : string) : string := trimEnd (trimStart s).

(** [s.split(/\s+/)]: [in_ws] tells that the previous code unit belonged
    to a separator.  The result always has at least one element; a string
    that starts (ends) with white space yields an empty first (last)
    element, as in JavaScript. *)
Fixpoint split_go (in_ws : bool) (s : string) : list string :=
  match s with
  | EmptyString => [EmptyString]
  | String c s' =>
      if is_ws c then
        if in_ws then split_go true s' else EmptyString :: split_go true s'
      else
        match split_go false s' with
        | t :: ts => String c t :: ts
        | [] => [String c EmptyString]
        end
  end.

Definition split_ws (s : string) : list string := split_go false s.

(** [parts.join(' ')] *)
Fixpoint join_sp (parts : list string) : string :=
  match parts with
  | [] => EmptyString
  | [p] => p
  | p :: ps => p ++ " " ++ join_sp ps
  end.

Fixpoint drop (n : nat) (s : string) : string :=
  match n, s with
  | O, _ => s
  | S n', String _ s' => drop n' s'
  | S _, EmptyString => EmptyString
  end.

Fixpoint startsWith (s prefix : string) {struct prefix} : bool :=
  match prefix, s with
  | EmptyString, _ => true
  | String p prefix', String c s' =>
      if Ascii.eqb p c then startsWith s' prefix' else false
  | String _ _, EmptyString => false
  end.

(** Decimal rendering of an integer, as template literals and property
    keys render a number whose magnitude is below 10^21 (from there on
    JavaScript switches to exponent notation). *)
Definition of_Z (z : Z) : string := NilZero.string_of_int (Z.to_int z).

End JsString.

(** The index at which [x.slice(start)] begins, for a string or an array of
    length [len] (ECMAScript: a negative [start] counts from the end, and
    the index is clamped to [0..len]). *)
Definition slice_from (start : Z) (len : nat) : nat :=
  if start <? 0 then Z.to_nat (Z.max (Z.of_nat len + start) 0)
  else Z.to_nat (Z.min start (Z.of_nat len)).

Definition string_slice (s : string) (start : Z) : string :=
  JsString.drop (slice_from start (String.length s)) s.

Definition array_slice {A} (l : list A) (start : Z) : list A :=
  drop (slice_from start (length l)) l.

(** ** JavaScript values *)

#[local] Set Warnings "-register-all".

(** Values produced by [JSON.parse]; an object is its list of properties. *)
Inductive json : Type :=
  | JNull
  | JBool (b : bool)
  | JNum (n : Z)
  | JStr (s : string)
  | JArr (items : list json)
  | JObj (fields : list (string * json)).

(** What reading a property of a parsed message yields. *)
Inductive jsval : Type :=
  | VUndefined
  | VJson (v : json).

(** A computation that returns or throws. *)
Inductive outcome (A : Type) : Type :=
  | Returns (a : A)
  | Throws (error : string).
Arguments Returns {A} a.
Arguments Throws {A} error.

#[global] Instance outcome_ret : MRet outcome := fun A a => Returns a.
#[global] Instance outcome_bind : MBind outcome := fun A B f m =>
  match m with
  | Returns a => f a
  | Throws e => Throws e
  end.

Definition truthy_json (v : json) : bool :=
  match v with
  | JNull => false
  | JBool b => b
  | JNum n => negb (n =? 0)
  | JStr s => negb (JsString.is_empty s)
  | JArr _ | JObj _ => true
  end.

Definition truthy (v : jsval) : bool :=
  match v with
  | VUndefined => false
  | VJson j => truthy_json j
  end.

Fixpoint assoc (k : string) (fields : list (string * json)) : option json :=
  match fields with
  | [] => None
  | (k', v) :: rest => if String.eqb k k' then Some v else assoc k rest
  end.

(** [v.k] and [v?.k] for the property names the server reads from a parsed
    message ([id], [method], [params], [name], [arguments], [limit],
    [command]); none of them is inherited by an object, an array or a
    primitive, so only objects answer. *)
Definition get_prop (v : jsval) (k : string) : jsval :=
  match v with
  | VJson (JObj fields) =>
      match assoc k fields with Some x => VJson x | None => VUndefined end
  | _ => VUndefined
  end.

(** [a || b] *)
Definition js_or (a b : jsval) : jsval := if truthy a then a else b.

(** [v === s] for a string literal [s], as in the [case] labels. *)
Definition is_str (v : jsval) (s : string) : bool :=
  match v with
  | VJson (JStr t) => String.eqb t s
  | _ => false
  end.

Definition cannot_convert : string :=
  "TypeError: Cannot convert object to primitive value".

(** String conversion of a value, as done for property keys, [+] and
    template literals.  A parsed object is converted by the [toString] it
    finds: the inherited one answers [[object Object]]; an own [toString]
    member is JSON data, hence not callable, and since [valueOf] gives no
    primitive either the conversion throws.  An array joins the conversions
    of its items, [null] counting as the empty string. *)
Fixpoint json_to_string (v : json) : outcome string :=
  match v with
  | JNull => Returns "null"
  | JBool true => Returns "true"
  | JBool false => Returns "false"
  | JNum n => Returns (JsString.of_Z n)
  | JStr s => Returns s
  | JArr items =>
      let item x := match x with JNull => Returns "" | _ => json_to_string x end in
      (fix join (l : list json) : outcome string :=
         match l with
         | [] => Returns ""
         | [x] => item x
         | x :: rest =>
             match item x, join rest with
             | Returns a, Returns b => Returns (a ++ "," ++ b)
             | Throws e, _ => Throws e
             | _, Throws e => Throws e
             end
         end) items
  | JObj fields =>
      match assoc "toString" fields with
      | Some _ => Throws cannot_convert
      | None => Returns "[object Object]"
      end
  end.

Definition to_string (v : jsval) : outcome string :=
  match v with
  | VUndefined => Returns "undefined"
  | VJson j => json_to_string j
  end.

(** ** Configuration (the [config] object of [index.js]) *)

Module config.
Definition defaultTimeout : Z := 30000.
Definition maxTimeout : Z := 120000.
Definition allowedDirectories : list string := ["/root/.openclaw/workspace"].
Definition maxOutput : Z := 1024 * 1024.
End config.

(** The literal that [executeCommand] uses as default and as fallback
    working directory. *)
Definition workspace : string := "/root/.openclaw/workspace".

(** ** The alias table

    [aliases] is an ordinary object used as a map: it has own properties
    and a prototype.  The prototype is [Object.prototype] at first; an
    assignment to [__proto__] that reaches the setter of [Object.prototype]
    replaces it by the assigned object or array, or by [null].  A read
    [aliases[k]] that finds no own property continues in the prototype. *)

Inductive prototype : Type :=
  | ObjectPrototype
  | NullPrototype
  | ObjectProto (fields : list (string * json))
  | ArrayProto (items : list json).

Module Table.
Record t : Type := mk {
  own : gmap string json;
  proto : prototype
}.
End Table.

Abbreviation alias_table := Table.t.

(** The literal [{}], and the notations of finite maps for the own
    properties of a table: [aliases !! k] is the own property [k], if any;
    insertion and deletion leave the prototype as it is. *)
#[global] Instance table_empty : Empty alias_table :=
  Table.mk ∅ ObjectPrototype.
#[global] Instance table_lookup : Lookup string json alias_table :=
  fun k aliases => Table.own aliases !! k.
#[global] Instance table_insert : Insert string json alias_table :=
  fun k v aliases =>
    Table.mk (<[k := v]> (Table.own aliases)) (Table.proto aliases).
#[global] Instance table_delete : Delete string alias_table :=
  fun k aliases => Table.mk (delete k (Table.own aliases)) (Table.proto aliases).
#[global] Instance table_singleton : SingletonM string json alias_table :=
  fun k v => Table.mk {[k := v]} ObjectPrototype.

(** The string-keyed members of [Object.prototype] and of
    [Array.prototype] (ECMAScript 2023); all of them are functions, but
    [__proto__], an accessor that yields the prototype of the object it is
    read from, and the [length] of [Array.prototype], which the [length] of
    an array hides. *)
Definition object_prototype_keys : list string :=
  [ "constructor"; "__defineGetter__"; "__defineSetter__"; "hasOwnProperty";
    "__lookupGetter__"; "__lookupSetter__"; "isPrototypeOf";
    "propertyIsEnumerable"; "toString"; "valueOf"; "__proto__";
    "toLocaleString" ].

Definition array_prototype_keys : list string :=
  [ "constructor"; "at"; "concat"; "copyWithin"; "fill"; "find"; "findIndex";
    "findLast"; "findLastIndex"; "lastIndexOf"; "pop"; "push"; "reverse";
    "shift"; "unshift"; "slice"; "sort"; "splice"; "includes"; "indexOf";
    "join"; "keys"; "entries"; "values"; "forEach"; "filter"; "flat";
    "flatMap"; "map"; "every"; "some"; "reduce"; "reduceRight";
    "toReversed"; "toSorted"; "toSpliced"; "with"; "toLocaleString";
    "toString" ].

Definition inherited (k : string) : bool :=
  existsb (String.eqb k) object_prototype_keys.

Definition array_inherited (k : string) : bool :=
  existsb (String.eqb k) array_prototype_keys.

(** The items of an array under their indices, from index [i] on. *)
Fixpoint indexed {A} (i : Z) (l : list A) : list (string * A) :=
  match l with
  | [] => []
  | x :: rest => (JsString.of_Z i, x) :: indexed (i + 1) rest
  end.

(** What a read [aliases[k]] yields: a JSON value (an own property, or a
    member of the object or array that was made the prototype), a member
    of [Object.prototype] or [Array.prototype], or [undefined]. *)
Inductive alias_entry : Type :=
  | Value (v : json)
  | Builtin
  | Missing.

(** The read continued in the prototype.  A parsed object or array has
    [Object.prototype] or [Array.prototype] as its own prototype. *)
Definition proto_get (p : prototype) (k : string) : alias_entry :=
  match p with
  | ObjectPrototype => if inherited k then Builtin else Missing
  | NullPrototype => Missing
  | ObjectProto fields =>
      match assoc k fields with
      | Some v => Value v
      | None => if inherited k then Builtin else Missing
      end
  | ArrayProto items =>
      match assoc k (indexed 0 items) with
      | Some v => Value v
      | None =>
          if String.eqb k "length" then Value (JNum (Z.of_nat (length items)))
          else if array_inherited k || inherited k then Builtin
          else Missing
      end
  end.

(** [aliases[k]] *)
Definition alias_get (aliases : alias_table) (k : string) : alias_entry :=
  match aliases !! k with
  | Some v => Value v
  | None => proto_get (Table.proto aliases) k
  end.

(** Members of the built-in prototypes are functions or objects, hence
    truthy. *)
Definition truthy_entry (e : alias_entry) : bool :=
  match e with
  | Value v => truthy_json v
  | Builtin => true
  | Missing => false
  end.

Definition not_a_function : string :=
  "TypeError: aliases[potentialAlias].split is not a function".

(** [resolveCommand(cmd)] (index.js, lines 61-76).  [parts] is never empty,
    so [parts[0]] is its head.  Only a string has a [split] method: a truthy
    entry of any other kind makes the call throw. *)
Definition resolveCommand (aliases : alias_table) (cmd : string) : outcome string :=
  let trimmed := JsString.trim cmd in
  let parts := JsString.split_ws trimmed in
  let potentialAlias := hd "" parts in
  let entry := alias_get aliases potentialAlias in
  if truthy_entry entry then
    match entry with
    | Value (JStr template) =>
        let aliasParts := JsString.split_ws template in
        let rest := tl parts in
        Returns (JsString.join_sp (aliasParts ++ rest))
    | _ => Throws not_a_function
    end
  else Returns cmd.

(** ** The execution engine ([executeCommand], index.js lines 81-210) *)

(** The argument object after destructuring; [None] is an absent property,
    for which the default applies. *)
Module Args.
Record t : Type := mk {
  command : string;
  cwd : option string;
  env : option (gmap string string);
  timeout : option Z;
  maxOutput : option Z
}.
End Args.

Module ExecutionResult.
(** The object built by the ['close'] handler; [exitCode = None] is the
    [null] code of a process ended by a signal. *)
Record t : Type := mk {
  success : bool;
  exitCode : option Z;
  stdout : string;
  stderr : string;
  duration : Z;
  cwd : string;
  timedOut : bool;
  originalCommand : string;
  resolvedCommand : string
}.
End ExecutionResult.

Module SpawnFailure.
(** The object built by the ['error'] handler; it has no [exitCode]. *)
Record t : Type := mk {
  success : bool;
  error : string;
  cwd : string;
  originalCommand : string;
  resolvedCommand : string
}.
End SpawnFailure.

Inductive result : Type :=
  | Completed (r : ExecutionResult.t)
  | Failed (f : SpawnFailure.t).

Module HistoryEntry.
Record t : Type := mk {
  command : string;
  cwd : string;
  success : bool;
  exitCode : option Z;
  duration : Z;
  timestamp : string
}.
End HistoryEntry.

(** The options handed to [spawn]. *)
Module Spawn.
Record t : Type := mk {
  file : string;
  shell : string;
  cwd : string;
  env : gmap string string
}.
End Spawn.

Inductive stream : Type := Stdout | Stderr.

(** The timer behind [timeoutId]. *)
Inductive timer_state : Type := Armed | Fired | Cleared.

(** The constants captured by the handlers of one execution. *)
Module Closure.
Record t : Type := mk {
  command : string;
  resolvedCmd : string;
  resolvedCwd : string;
  timeout : Z;
  maxOutput : Z;
  startTime : Z;
  delay : Z
}.
End Closure.

(** The mutable variables of one execution.  [sigkills] counts the calls of
    [child.kill('SIGKILL')]; [settled] is the value the promise was resolved
    with, if any. *)
Module Exec.
Record t : Type := mk {
  stdout : string;
  stderr : string;
  killed : bool;
  timedOut : bool;
  timer : timer_state;
  sigkills : nat;
  settled : option result
}.

Definition init : t := mk "" "" false false Armed 0 None.
End Exec.

(** What the runtime delivers to the handlers of one execution. *)
Inductive event : Type :=
  | Data (s : stream) (chunk : string)
  | Timeout
  | Close (code : option Z) (now : Z) (isoNow : string)
  | Error (message : string).

Definition timeout_marker (timeout : Z) : string :=
  String (ascii_of_nat 10) "[Command timed out after "
    ++ JsString.of_Z (timeout / 1000) ++ "s]".

(** [resolve(v)]: only the first call settles the promise. *)
Definition resolve (st : Exec.t) (v : result) : Exec.t :=
  match Exec.settled st with
  | Some _ => st
  | None =>
      Exec.mk (Exec.stdout st) (Exec.stderr st) (Exec.killed st)
        (Exec.timedOut st) (Exec.timer st) (Exec.sigkills st) (Some v)
  end.

(** [if (timeoutId) clearTimeout(timeoutId)] *)
Definition clearTimeout (st : Exec.t) : Exec.t :=
  Exec.mk (Exec.stdout st) (Exec.stderr st) (Exec.killed st)
    (Exec.timedOut st)
    (match Exec.timer st with Armed => Cleared | t => t end)
    (Exec.sigkills st) (Exec.settled st).

(** [outputHandler(data, stream)] (lines 123-141) *)
Definition outputHandler (c : Closure.t) (st : Exec.t) (chunk : string)
    (s : stream) : Exec.t :=
  let totalLen :=
    Z.of_nat (String.length (Exec.stdout st) + String.length (Exec.stderr st)) in
  if Closure.maxOutput c <? totalLen then
    if negb (Exec.killed st) && negb (Exec.timedOut st) then
      Exec.mk (Exec.stdout st) (Exec.stderr st) true (Exec.timedOut st)
        (Exec.timer st) (S (Exec.sigkills st)) (Exec.settled st)
    else st
  else
    match s with
    | Stdout =>
        Exec.mk (Exec.stdout st ++ chunk) (Exec.stderr st) (Exec.killed st)
          (Exec.timedOut st) (Exec.timer st) (Exec.sigkills st)
          (Exec.settled st)
    | Stderr =>
        Exec.mk (Exec.stdout st) (Exec.stderr st ++ chunk) (Exec.killed st)
          (Exec.timedOut st) (Exec.timer st) (Exec.sigkills st)
          (Exec.settled st)
    end.

(** [doTimeout()] (lines 147-158) *)
Definition doTimeout (c : Closure.t) (st : Exec.t) : Exec.t :=
  if negb (Exec.killed st) && negb (Exec.timedOut st) then
    Exec.mk (Exec.stdout st)
      (Exec.stderr st ++ timeout_marker (Closure.timeout c))
      true true (Exec.timer st) (S (Exec.sigkills st)) (Exec.settled st)
  else st.

(** The timer calls [doTimeout] once, and only while it is armed. *)
Definition fire (c : Closure.t) (st : Exec.t) : Exec.t :=
  match Exec.timer st with
  | Armed =>
      doTimeout c
        (Exec.mk (Exec.stdout st) (Exec.stderr st) (Exec.killed st)
           (Exec.timedOut st) Fired (Exec.sigkills st) (Exec.settled st))
  | _ => st
  end.

(** The object the ['close'] handler builds (lines 165-177). *)
Definition close_result (c : Closure.t) (st : Exec.t) (code : option Z)
    (now : Z) : ExecutionResult.t :=
  let maxOutput := Closure.maxOutput c in
  let timedOut := Exec.timedOut st in
  let duration := now - Closure.startTime c in
  ExecutionResult.mk
    (bool_decide (code = Some 0) || timedOut)
    code
    (string_slice (Exec.stdout st) (- maxOutput))
    (if timedOut then Exec.stderr st
     else string_slice (Exec.stderr st) (- maxOutput))
    duration
    (Closure.resolvedCwd c)
    timedOut
    (Closure.command c)
    (Closure.resolvedCmd c).

(** The entry pushed for an execution that did not time out (lines 181-188). *)
Definition history_entry (c : Closure.t) (code : option Z) (now : Z)
    (isoNow : string) : HistoryEntry.t :=
  HistoryEntry.mk
    (Closure.resolvedCmd c)
    (Closure.resolvedCwd c)
    (bool_decide (code = Some 0))
    code
    (now - Closure.startTime c)
    isoNow.

(** [child.on('close', ...)] (lines 162-196); [commandHistory] is the
    module-level array. *)
Definition on_close (c : Closure.t) (st : Exec.t)
    (commandHistory : list HistoryEntry.t) (code : option Z) (now : Z)
    (isoNow : string) : Exec.t * list HistoryEntry.t :=
  let st1 := clearTimeout st in
  let result := close_result c st1 code now in
  let commandHistory' :=
    if negb (Exec.timedOut st1)
    then (commandHistory ++ [history_entry c code now isoNow])%list
    else commandHistory in
  (resolve st1 (Completed result), commandHistory').

(** [child.on('error', ...)] (lines 198-208) *)
Definition on_error (c : Closure.t) (st : Exec.t) (message : string) : Exec.t :=
  let st1 := clearTimeout st in
  resolve st1
    (Failed
       (SpawnFailure.mk false message (Closure.resolvedCwd c)
          (Closure.command c) (Closure.resolvedCmd c))).

(** One event of one execution. *)
Definition step (c : Closure.t) (s : Exec.t * list HistoryEntry.t)
    (ev : event) : Exec.t * list HistoryEntry.t :=
  let '(st, commandHistory) := s in
  match ev with
  | Data str chunk => (outputHandler c st chunk str, commandHistory)
  | Timeout => (fire c st, commandHistory)
  | Close code now isoNow => on_close c st commandHistory code now isoNow
  | Error message => (on_error c st message, commandHistory)
  end.

Definition run (c : Closure.t) (s : Exec.t * list HistoryEntry.t)
    (evs : list event) : Exec.t * list HistoryEntry.t :=
  fold_left (step c) evs s.

(** Output and timer events, which precede the end of the process. *)
Definition streaming (ev : event) : bool :=
  match ev with
  | Data _ _ | Timeout => true
  | Close _ _ _ | Error _ => false
  end.

(** How the promise executor ends: it either throws, which rejects the
    promise and leaves nothing behind that could settle it otherwise, or
    has spawned the subprocess, registered its handlers and armed the
    timer. *)
Inductive started : Type :=
  | Rejected (error : string)
  | Running (child : Spawn.t) (c : Closure.t) (st : Exec.t).

Section Engine.

(** [path.resolve], [process.env] and [spawn] belong to the runtime.
    [path.resolve] throws when it needs the current directory of the
    process and cannot obtain it.  [spawn_throws options] is the error, if
    any, with which the call of [spawn] or the registration of the output
    handlers on the child (lines 115-144) throws: [spawn] refuses some
    arguments (a NUL character in the command or in the directory, for
    instance) and throws on the failures of the system call that it does
    not report through the ['error'] event, and a child that could not be
    given its output streams has none to register a handler on. *)
Variable path_resolve : string -> outcome string.
Variable process_env : gmap string string.
Variable spawn_throws : Spawn.t -> option string.

(** Lines 94-102: the working directory the subprocess gets. *)
Definition isAllowed (resolvedCwd : string) : bool :=
  existsb (fun dir => JsString.startsWith resolvedCwd dir)
    config.allowedDirectories.

Definition validateCwd (cwd : string) : outcome string :=
  resolvedCwd ← path_resolve cwd;
  Returns (if isAllowed resolvedCwd then resolvedCwd else workspace).

(** The synchronous part of the promise executor (lines 83-120 and 160). *)
Definition executeCommand (aliases : alias_table) (args : Args.t)
    (startTime : Z) : started :=
  let command := Args.command args in
  let cwd := default workspace (Args.cwd args) in
  let env := default ∅ (Args.env args) in
  let timeout := default config.defaultTimeout (Args.timeout args) in
  let maxOutput := default config.maxOutput (Args.maxOutput args) in
  match resolveCommand aliases command with
  | Throws e => Rejected e
  | Returns resolvedCmd =>
      match validateCwd cwd with
      | Throws e => Rejected e
      | Returns resolvedCwd =>
          let shellEnv := env ∪ process_env in
          let child := Spawn.mk resolvedCmd "/bin/bash" resolvedCwd shellEnv in
          match spawn_throws child with
          | Some e => Rejected e
          | None =>
              Running child
                (Closure.mk command resolvedCmd resolvedCwd timeout maxOutput
                   startTime (Z.min timeout config.maxTimeout))
                Exec.init
          end
      end
  end.

End Engine.

(** [getHistory(limit = 50)] (lines 215-217); [None] is an absent limit. *)
Definition getHistory (commandHistory : list HistoryEntry.t)
    (limit : option Z) : list HistoryEntry.t :=
  let limit := default 50 limit in
  rev (array_slice commandHistory (- limit)).

(** [clearHistory()] *)
Definition clearHistory (commandHistory : list HistoryEntry.t)
    : list HistoryEntry.t := [].

(** ** Responses *)

(** What a response's [content] text or [result] is serialised from. *)
Inductive payload : Type :=
  | Capabilities
  | ExecutionText (r : result)
  | HistoryText (entries : list HistoryEntry.t)
  | ClearedText
  | AliasesText (aliases : alias_table)
  | AddedText (name : jsval)
  | RemovedText (name : jsval).

Inductive reply : Type :=
  | Result (p : payload)
  | ErrorReply (code : Z) (message : string).

Module Response.
(** [id = VUndefined] is a response without [id] member. *)
Record t : Type := mk { id : jsval; body : reply }.
End Response.

(** What handling a message does besides updating the tables. *)
Inductive effect : Type :=
  | Send (r : Response.t)
  | SaveAliases (aliases : alias_table)
  | Execute (id : jsval) (toolArgs : jsval).

(** The [then] and [catch] callbacks attached to [executeCommand(toolArgs)]
    (lines 383-393).  The value a throwing executor rejects with is a
    [TypeError], which has no [error] member. *)
Definition execute_reply (id : jsval) (settlement : outcome result) : Response.t :=
  match settlement with
  | Returns r => Response.mk id (Result (ExecutionText r))
  | Throws _ => Response.mk id (ErrorReply (-32000) "Command failed")
  end.

(** The module-level tables. *)
Module Server.
Record t : Type := mk {
  aliases : alias_table;
  commandHistory : list HistoryEntry.t
}.
End Server.

(** Whether the assignment [aliases.__proto__ = v] reaches the setter of
    [Object.prototype]: it does not when the table has an own property of
    that name, when its prototype is an object that holds the name as a
    member (the assignment then defines an own property, as for any other
    name), or when its prototype is [null]. *)
Definition reaches_setter (aliases : alias_table) : bool :=
  match aliases !! "__proto__" with
  | Some _ => false
  | None =>
      match Table.proto aliases with
      | ObjectPrototype | ArrayProto _ => true
      | NullPrototype => false
      | ObjectProto fields =>
          match assoc "__proto__" fields with
          | Some _ => false
          | None => true
          end
      end
  end.

(** The setter: an object, an array or [null] becomes the prototype; any
    other value is ignored.  No property is created. *)
Definition set_prototype (aliases : alias_table) (v : json) : alias_table :=
  match v with
  | JObj fields => Table.mk (Table.own aliases) (ObjectProto fields)
  | JArr items => Table.mk (Table.own aliases) (ArrayProto items)
  | JNull => Table.mk (Table.own aliases) NullPrototype
  | JBool _ | JNum _ | JStr _ => aliases
  end.

(** [aliases[key] = command]; the callers assign JSON values only. *)
Definition alias_set (aliases : alias_table) (key : string) (command : jsval)
    : alias_table :=
  match command with
  | VJson c =>
      if String.eqb key "__proto__" && reaches_setter aliases
      then set_prototype aliases c
      else <[key := c]> aliases
  | VUndefined => aliases
  end.

Section Dispatcher.

(** The integer that [slice] makes of the number a string converts to. *)
Variable string_to_integer : string -> Z.

(** The operand of [-limit]. *)
Definition to_integer (v : json) : outcome Z :=
  match v with
  | JNull => Returns 0
  | JBool b => Returns (if b then 1 else 0)
  | JNum n => Returns n
  | JStr s => Returns (string_to_integer s)
  | JArr _ | JObj _ => s ← json_to_string v; Returns (string_to_integer s)
  end.

Definition limit_of (v : jsval) : outcome (option Z) :=
  match v with
  | VUndefined => Returns None
  | VJson j => n ← to_integer j; Returns (Some n)
  end.

(** The [tools/call] branch (lines 377-464). *)
Definition callTool (srv : Server.t) (id params : jsval)
    : outcome (Server.t * list effect) :=
  let aliases := Server.aliases srv in
  let commandHistory := Server.commandHistory srv in
  let error code message := Send (Response.mk id (ErrorReply code message)) in
  let ok p := Send (Response.mk id (Result p)) in
  let toolName := get_prop params "name" in
  let toolArgs := js_or (get_prop params "arguments") (VJson (JObj [])) in
  if is_str toolName "execute" then
    Returns (srv, [Execute id toolArgs])
  else if is_str toolName "history" then
    limit ← limit_of (get_prop toolArgs "limit");
    Returns (srv, [ok (HistoryText (getHistory commandHistory limit))])
  else if is_str toolName "clearHistory" then
    Returns (Server.mk aliases (clearHistory commandHistory), [ok ClearedText])
  else if is_str toolName "aliases" then
    Returns (srv, [ok (AliasesText aliases)])
  else if is_str toolName "addAlias" then
    let name := get_prop toolArgs "name" in
    let command := get_prop toolArgs "command" in
    if truthy name && truthy command then
      key ← to_string name;
      let aliases' := alias_set aliases key command in
      Returns (Server.mk aliases' commandHistory,
               [SaveAliases aliases'; ok (AddedText name)])
    else
      Returns (srv, [error (-32602) "Missing required fields: name, command"])
  else if is_str toolName "removeAlias" then
    let name := get_prop toolArgs "name" in
    found ← (if truthy name
             then key ← to_string name;
                  Returns (truthy_entry (alias_get aliases key))
             else Returns false);
    if found : bool then
      key ← to_string name;
      let aliases' := delete key aliases in
      Returns (Server.mk aliases' commandHistory,
               [SaveAliases aliases'; ok (RemovedText name)])
    else
      shown ← to_string name;
      Returns (srv, [error (-32602) ("Alias not found: " ++ shown)])
  else
    shown ← to_string toolName;
    Returns (srv, [error (-32601) ("Unknown tool: " ++ shown)]).

(** [handleMessage(msg)] (lines 300-469) *)
Definition handleMessage (srv : Server.t) (msg : json)
    : outcome (Server.t * list effect) :=
  let m := js_or (VJson msg) (VJson (JObj [])) in
  let id := get_prop m "id" in
  let method := get_prop m "method" in
  let params := get_prop m "params" in
  if is_str method "initialize" then
    Returns (srv, [Send (Response.mk id (Result Capabilities))])
  else if is_str method "notifications/initialized" then
    Returns (srv, [])
  else if is_str method "tools/call" then
    callTool srv id params
  else
    Returns (srv, [Send (Response.mk id (ErrorReply (-32600) "Unknown method"))]).

End Dispatcher.

(** ** The message framer ([readStdin], lines 261-298) *)

Module Header.

Definition lower (c : ascii) : ascii :=
  let n := nat_of_ascii c in
  if ((65 <=? n) && (n <=? 90))%nat then ascii_of_nat (n + 32) else c.

Definition is_digit (c : ascii) : bool :=
  let n := nat_of_ascii c in ((48 <=? n) && (n <=? 57))%nat.

(** [s] starts with [pattern], ignoring case; the rest of [s] if so. *)
Fixpoint strip_ci (pattern s : string) : option string :=
  match pattern, s with
  | EmptyString, _ => Some s
  | String p pattern', String c s' =>
      if Ascii.eqb (lower p) (lower c) then strip_ci pattern' s' else None
  | String _ _, EmptyString => None
  end.

(** The integer that a string of decimal digits denotes. *)
Fixpoint digits (acc : Z) (s : string) : option Z :=
  match s with
  | EmptyString => Some acc
  | String c s' =>
      if is_digit c
      then digits (10 * acc + Z.of_nat (nat_of_ascii c - 48)) s'
      else None
  end.

(** The number that [parseInt] makes of a non-negative integer: the
    nearest double, ties going to the even significand.  Integers up to
    2^53 are exact.  (From about 1.8e308 on [parseInt] returns [Infinity];
    the integer kept here exceeds, like [Infinity], the length of every
    JavaScript string.) *)
Definition to_double (n : Z) : Z :=
  if n <=? 2 ^ 53 then n
  else
    let e := Z.log2 n - 52 in
    let q := Z.shiftr n e in
    let r := n mod 2 ^ e in
    let half := 2 ^ (e - 1) in
    let q' :=
      if r <? half then q
      else if half <? r then q + 1
      else if Z.even q then q else q + 1 in
    Z.shiftl q' e.

(** [parseInt(ds, 10)] on a string of decimal digits. *)
Definition parseInt (ds : string) : option Z :=
  n ← digits 0 ds; Some (to_double n).

(** The match of the header pattern, [Content-Length:] in any case, white
    space, then digits up to the end of the line, followed by [parseInt]
    of the digits. *)
Definition content_length (line : string) : option Z :=
  match strip_ci "Content-Length:" line with
  | Some rest =>
      match JsString.trimStart rest with
      | EmptyString => None
      | ds => parseInt ds
      end
  | None => None
  end.

End Header.

Module Framer.
Record t : Type := mk {
  buffer : string;
  contentLength : Z;
  readingBody : bool
}.

Definition init : t := mk "" 0 false.
End Framer.

Definition parse_error : Response.t :=
  Response.mk (VJson JNull) (ErrorReply (-32700) "Parse error").

Definition newline : string := String (ascii_of_nat 10) EmptyString.

Section Reader.

Variable string_to_integer : string -> Z.

(** [JSON.parse]; [None] when it throws. *)
Variable JSON_parse : string -> option json.

(** The [try] block of the ['line'] handler (lines 286-291): the [catch]
    clause receives what [JSON.parse] throws and also what
    [handleMessage] throws. *)
Definition parse_and_handle (srv : Server.t) (buffer : string)
    : Server.t * list effect :=
  match JSON_parse buffer with
  | Some msg =>
      match handleMessage string_to_integer srv msg with
      | Returns (srv', effects) => (srv', effects)
      | Throws _ => (srv, [Send parse_error])
      end
  | None => (srv, [Send parse_error])
  end.

(** The ['line'] handler (lines 270-297). *)
Definition on_line (s : Framer.t * Server.t) (line : string)
    : Framer.t * Server.t * list effect :=
  let '(f, srv) := s in
  if negb (Framer.readingBody f) then
    match Header.content_length line with
    | Some n => (Framer.mk (Framer.buffer f) n false, srv, [])
    | None =>
        if JsString.is_empty (JsString.trim line) then
          if 0 <? Framer.contentLength f
          then (Framer.mk "" (Framer.contentLength f) true, srv, [])
          else (f, srv, [])
        else (f, srv, [])
    end
  else
    let buffer := Framer.buffer f ++ line ++ newline in
    if Framer.contentLength f <=? Z.of_nat (String.length buffer) then
      let '(srv', effects) := parse_and_handle srv buffer in
      (Framer.init, srv', effects)
    else (Framer.mk buffer (Framer.contentLength f) true, srv, []).

(** The reader over a sequence of lines, with everything it emits. *)
Fixpoint read_lines (s : Framer.t * Server.t) (lines : list string)
    : Framer.t * Server.t * list effect :=
  match lines with
  | [] => (s, [])
  | line :: rest =>
      let '(f, srv, effects) := on_line s line in
      let '(f', srv', effects') := read_lines (f, srv) rest in
      (f', srv', (effects ++ effects')%list)
  end.

End Reader.

(** ** Invariants and readings of the specification *)

(** The kill counter follows the [killed] flag, and [timedOut] is only set
    together with [killed]. *)
Definition kill_inv (st : Exec.t) : Prop :=
  Exec.sigkills st = (if Exec.killed st then 1%nat else 0%nat)
  /\ (Exec.timedOut st = true -> Exec.killed st = true).

(** The [cwd] member of a settlement value. *)
Definition result_cwd (r : result) : string :=
  match r with
  | Completed r => ExecutionResult.cwd r
  | Failed f => SpawnFailure.cwd f
  end.

(** The combined size that [outputHandler] compares with [maxOutput]. *)
Definition totalLen (st : Exec.t) : Z :=
  Z.of_nat (String.length (Exec.stdout st) + String.length (Exec.stderr st)).

(** Alias resolution as the specification words it: whenever the first
    token of the input is a key of the alias table, the result is the
    template, split on white space, followed by the remaining tokens of the
    input, joined by single spaces. *)
Definition resolves_every_key : Prop :=
  forall (aliases : alias_table) (cmd template : string),
    let parts := JsString.split_ws (JsString.trim cmd) in
    aliases !! hd "" parts = Some (JStr template) ->
    resolveCommand aliases cmd
    = Returns (JsString.join_sp (JsString.split_ws template ++ tl parts)).

(** An effect of handling a request answers with correlation id [id]:
    a response sent at once carries it, and so does the response that an
    execution sends when its promise is settled, whatever the settlement. *)
Definition carries_id (id : jsval) (e : effect) : Prop :=
  match e with
  | Send r => Response.id r = id
  | Execute i _ => forall settlement, Response.id (execute_reply i settlement) = id
  | SaveAliases _ => True
  end.

(** A tool argument that is absent or is the empty string. *)
Definition absent_or_empty (v : jsval) : Prop :=
  v = VUndefined \/ v = VJson (JStr "").

(** A request whose tool name is an object with a [toString] member, and
    the text of its body. *)
Definition odd_tool_request : json :=
  JObj [("id", JNum 7); ("method", JStr "tools/call");
        ("params", JObj [("name", JObj [("toString", JNum 0)])])].

Definition quoted (s : string) : string :=
  String (ascii_of_nat 34) s ++ String (ascii_of_nat 34) "".

Definition odd_tool_body : string :=
  "{" ++ quoted "id" ++ ":7," ++ quoted "method" ++ ":" ++ quoted "tools/call"
  ++ "," ++ quoted "params" ++ ":{" ++ quoted "name" ++ ":{"
  ++ quoted "toString" ++ ":0}}}".

(** A string without white space, a string that ends in white space, and
    the tokens of a string: the non-empty pieces between white space. *)
Fixpoint ws_free (s : string) : bool :=
  match s with
  | EmptyString => true
  | String c s' => negb (JsString.is_ws c) && ws_free s'
  end.

Fixpoint ends_ws (s : string) : bool :=
  match s with
  | EmptyString => false
  | String c EmptyString => JsString.is_ws c
  | String _ s' => ends_ws s'
  end.

Definition nonempty (s : string) : bool := negb (JsString.is_empty s).

Definition words (s : string) : list string :=
  List.filter nonempty (JsString.split_ws s).

(** ** Further definitions

    The remaining functions of [index.js] and of [alias-manager.js], and
    the predicates used to state their properties. *)

(** [saveHistory()] (index.js, lines 230-236): what is handed to
    [JSON.stringify] and written to the history file. *)
Definition saveHistory (commandHistory : list HistoryEntry.t)
    : list HistoryEntry.t :=
  array_slice commandHistory (- 1000).

(** An event whose chunk, if it is an output event, has at most [L] code
    units. *)
Definition chunk_within (L : nat) (ev : event) : Prop :=
  match ev with
  | Data _ chunk => (String.length chunk <= L)%nat
  | _ => True
  end.

(** A value that is not an array or an object. *)
Definition primitive (v : jsval) : bool :=
  match v with
  | VJson (JArr _) | VJson (JObj _) => false
  | _ => true
  end.

Definition is_error_reply (e : effect) : bool :=
  match e with
  | Send r => match Response.body r with ErrorReply _ _ => true | Result _ => false end
  | _ => false
  end.

(** A token: a non-empty string without white space. *)
Definition token (t : string) : Prop := nonempty t = true /\ ws_free t = true.

(** The text that the framer has accumulated from the lines of a body. *)
Fixpoint body_of (lines : list string) : string :=
  match lines with
  | [] => EmptyString
  | line :: rest => line ++ newline ++ body_of rest
  end.

(** [loadAliases()] (index.js, lines 36-45).  [file] is what [JSON.parse]
    makes of the alias file, [None] when the file is missing or does not
    parse (both are ignored).  [Object.assign] copies the own enumerable
    properties of the parsed value by assignment, in their order: the
    members of an object, the items of an array and the code units of a
    string under their indices, nothing for other values. *)
Fixpoint assign_fields (aliases : alias_table) (fields : list (string * json))
    : alias_table :=
  match fields with
  | [] => aliases
  | (k, v) :: rest => assign_fields (alias_set aliases k (VJson v)) rest
  end.

Fixpoint code_units (s : string) : list json :=
  match s with
  | EmptyString => []
  | String c s' => JStr (String c EmptyString) :: code_units s'
  end.

Definition loadAliases (aliases : alias_table) (file : option json)
    : alias_table :=
  match file with
  | Some (JObj fields) => assign_fields aliases fields
  | Some (JArr items) => assign_fields aliases (indexed 0 items)
  | Some (JStr s) => assign_fields aliases (indexed 0 (code_units s))
  | Some _ | None => aliases
  end.

(** ** The alias manager ([alias-manager.js])

    The command-line tool works on the object it has parsed from the alias
    file, so a read [aliases[name]] follows the same rules as in the server.
    What it prints and writes is recorded in order; the write of the alias
    file is taken to succeed. *)
Module AliasManager.

Inductive output : Type :=
  | WriteFile (aliases : alias_table)
  | SavedTo
  | Overwriting (name : string)
  | Added (name command : string)
  | NotFound (name : string)
  | Removed (name : string) (cmd : alias_entry)
  | Shows (name : string) (cmd : alias_entry)
  | Resolved (name : string) (extraArgs : string)
  | Command (resolved : string).

(** [saveAliases(aliases)] (lines 32-35) *)
Definition saveAliases (aliases : alias_table) : list output :=
  [WriteFile aliases; SavedTo].

(** [addAlias(aliases, name, command)] (lines 49-56) *)
Definition addAlias (aliases : alias_table) (name command : string)
    : alias_table * list output :=
  let warned :=
    if truthy_entry (alias_get aliases name) then [Overwriting name] else [] in
  let aliases' := alias_set aliases name (VJson (JStr command)) in
  (aliases', (warned ++ saveAliases aliases' ++ [Added name command])%list).

(** [removeAlias(aliases, name)] (lines 58-68) *)
Definition removeAlias (aliases : alias_table) (name : string)
    : alias_table * list output * bool :=
  if negb (truthy_entry (alias_get aliases name)) then
    (aliases, [NotFound name], false)
  else
    let cmd := alias_get aliases name in
    let aliases' := delete name aliases in
    (aliases', (saveAliases aliases' ++ [Removed name cmd])%list, true).

(** [getAlias(aliases, name)] (lines 70-77) *)
Definition getAlias (aliases : alias_table) (name : string)
    : list output * bool :=
  if negb (truthy_entry (alias_get aliases name)) then ([NotFound name], false)
  else ([Shows name (alias_get aliases name)], true).

Definition not_a_function : string :=
  "TypeError: aliases[name].split is not a function".

(** [resolveAlias(aliases, name, extraArgs)] (lines 79-90) *)
Definition resolveAlias (aliases : alias_table) (name : string)
    (extraArgs : list string) : outcome (list output * bool) :=
  if negb (truthy_entry (alias_get aliases name)) then
    Returns ([NotFound name], false)
  else
    match alias_get aliases name with
    | Value (JStr template) =>
        let parts := JsString.split_ws template in
        let resolved := JsString.join_sp (parts ++ extraArgs) in
        Returns
          ([Resolved name (JsString.join_sp extraArgs); Command resolved], true)
    | _ => Throws not_a_function
    end.

End AliasManager.

(** The number that a sequence of decimal digits denotes after the digits
    already read amount to [acc]. *)
Fixpoint uint_value (acc : Z) (d : Decimal.uint) : Z :=
  match d with
  | Decimal.Nil => acc
  | Decimal.D0 l => uint_value (10 * acc + 0) l
  | Decimal.D1 l => uint_value (10 * acc + 1) l
  | Decimal.D2 l => uint_value (10 * acc + 2) l
  | Decimal.D3 l => uint_value (10 * acc + 3) l
  | Decimal.D4 l => uint_value (10 * acc + 4) l
  | Decimal.D5 l => uint_value (10 * acc + 5) l
  | Decimal.D6 l => uint_value (10 * acc + 6) l
  | Decimal.D7 l => uint_value (10 * acc + 7) l
  | Decimal.D8 l => uint_value (10 * acc + 8) l
  | Decimal.D9 l => uint_value (10 * acc + 9) l
  end.

(** * Properties *)

(** ** Strings and slices *)

Lemma string_app_cons (a : ascii) (s t : string) :
  String a s ++ t = String a (s ++ t).
Proof. reflexivity. Qed.

Lemma string_length_app (s t : string) :
  String.length (s ++ t) = (String.length s + String.length t)%nat.
Proof. induction s as [|a s IH]; simpl; [reflexivity | now rewrite IH]. Qed.

Lemma drop_length (n : nat) (s : string) :
  String.length (JsString.drop n s) = (String.length s - n)%nat.
Proof.
  revert s; induction n as [|n IH]; intros s.
  - simpl. lia.
  - destruct s as [|a s]; simpl; [reflexivity | apply IH].
Qed.

Lemma slice_from_tail (m : Z) (len : nat) :
  0 < m -> slice_from (- m) len = (len - Z.to_nat m)%nat.
Proof.
  intros Hm. unfold slice_from.
  destruct (Z.ltb_spec (- m) 0); lia.
Qed.

Lemma slice_from_zero (len : nat) : slice_from (- 0) len = 0%nat.
Proof. unfold slice_from. simpl. lia. Qed.

(** With a positive cap, [s.slice(-m)] is the last [m] code units of [s]. *)
Lemma string_slice_tail (s : string) (m : Z) :
  0 < m ->
  string_slice s (- m) = JsString.drop (String.length s - Z.to_nat m) s
  /\ Z.of_nat (String.length (string_slice s (- m))) <= m.
Proof.
  intros Hm. unfold string_slice. rewrite slice_from_tail by exact Hm.
  split; [reflexivity|]. rewrite drop_length. lia.
Qed.

(** ** The execution engine *)

Lemma run_app c s evs evs' : run c s (evs ++ evs') = run c (run c s evs) evs'.
Proof. unfold run. apply fold_left_app. Qed.

Lemma run_cons c s ev evs : run c s (ev :: evs) = run c (step c s ev) evs.
Proof. reflexivity. Qed.

(** Output and timer events neither settle the promise nor touch the
    history. *)
Lemma streaming_step c st hist ev :
  streaming ev = true ->
  snd (step c (st, hist) ev) = hist
  /\ Exec.settled (fst (step c (st, hist) ev)) = Exec.settled st.
Proof.
  destruct ev as [s chunk| | |]; simpl; try discriminate; intros _.
  - split; [reflexivity|]. unfold outputHandler.
    destruct (_ <? _); [destruct (_ && _)|destruct s]; reflexivity.
  - split; [reflexivity|]. unfold fire, doTimeout.
    destruct (Exec.timer st); simpl; try reflexivity.
    destruct (_ && _); reflexivity.
Qed.

Lemma streaming_run c evs : forall st hist,
  forallb streaming evs = true ->
  snd (run c (st, hist) evs) = hist
  /\ Exec.settled (fst (run c (st, hist) evs)) = Exec.settled st.
Proof.
  induction evs as [|ev evs IH]; intros st hist Hs; [now split|].
  simpl in Hs. apply andb_prop in Hs as [Hev Hevs].
  rewrite run_cons.
  destruct (streaming_step c st hist ev Hev) as [Hh Hp].
  destruct (step c (st, hist) ev) as [st1 hist1]. simpl in Hh, Hp. subst hist1.
  destruct (IH st1 hist Hevs) as [Hh' Hp']. now rewrite Hh', Hp', Hp.
Qed.

Lemma settled_clearTimeout st : Exec.settled (clearTimeout st) = Exec.settled st.
Proof. reflexivity. Qed.

(** The ['close'] handler on a pending promise. *)
Lemma on_close_pending c st hist code now isoNow :
  Exec.settled st = None ->
  Exec.settled (fst (on_close c st hist code now isoNow))
    = Some (Completed (close_result c (clearTimeout st) code now))
  /\ snd (on_close c st hist code now isoNow)
     = if Exec.timedOut st then hist
       else (hist ++ [history_entry c code now isoNow])%list.
Proof.
  intros Hp. unfold on_close, resolve. simpl.
  rewrite Hp. simpl. split; [reflexivity|].
  destruct (Exec.timedOut st); reflexivity.
Qed.

(** A process that streams and then exits: the promise is resolved with the
    object the ['close'] handler builds from the state reached so far. *)
Lemma run_to_close c hist evs code now isoNow :
  forallb streaming evs = true ->
  let st := fst (run c (Exec.init, hist) evs) in
  let s' := run c (Exec.init, hist) (evs ++ [Close code now isoNow]) in
  Exec.settled (fst s')
    = Some (Completed (close_result c (clearTimeout st) code now))
  /\ snd s' = if Exec.timedOut st then hist
              else (hist ++ [history_entry c code now isoNow])%list.
Proof.
  intros Hs st s'. subst s'. rewrite run_app.
  destruct (streaming_run c evs Exec.init hist Hs) as [Hh Hp].
  subst st. destruct (run c (Exec.init, hist) evs) as [st hist1].
  simpl in *. subst hist1. apply on_close_pending. exact Hp.
Qed.

(** C1: when the subprocess streams and then exits with code [code], the
    promise is resolved with an ExecutionResult whose [exitCode] is [code]
    and whose [success] is true exactly when [code] is 0 or [timedOut] is
    true; so a timed-out execution is reported as a success. *)
Theorem success_iff_zero_or_timed_out c hist evs code now isoNow :
  forallb streaming evs = true ->
  exists r,
    Exec.settled (fst (run c (Exec.init, hist) (evs ++ [Close code now isoNow])))
      = Some (Completed r)
    /\ ExecutionResult.exitCode r = code
    /\ ExecutionResult.timedOut r
       = Exec.timedOut (fst (run c (Exec.init, hist) evs))
    /\ (ExecutionResult.success r = true
        <-> code = Some 0 \/ ExecutionResult.timedOut r = true)
    /\ (ExecutionResult.timedOut r = true -> ExecutionResult.success r = true).
Proof.
  intros Hs. destruct (run_to_close c hist evs code now isoNow Hs) as [Hp _].
  eexists; split; [exact Hp|]. simpl.
  repeat split; try reflexivity.
  - intros H. apply orb_true_iff in H as [H|H]; [left|right; exact H].
    now apply bool_decide_eq_true in H.
  - intros [H|H]; apply orb_true_iff; [left|right; exact H].
    now apply bool_decide_eq_true.
  - intros H. apply orb_true_iff. now right.
Qed.

Lemma success_iff_zero_or_timed_out_witness :
  exists r,
    Exec.settled
      (fst (run (Closure.mk "sleep 5" "sleep 5" workspace 100 1048576 0 100)
              (Exec.init, [])
              ([Data Stdout "a"; Timeout] ++ [Close None 130 "t"])))
      = Some (Completed r)
    /\ ExecutionResult.success r = true
    /\ ExecutionResult.timedOut r = true.
Proof.
  destruct (success_iff_zero_or_timed_out
              (Closure.mk "sleep 5" "sleep 5" workspace 100 1048576 0 100)
              [] [Data Stdout "a"; Timeout] None 130 "t" eq_refl)
    as (r & Hr & _ & Ht & _ & Hs).
  exists r. split; [exact Hr|]. split; [apply Hs|]; exact Ht.
Defined.

(** What [executeCommand] hands to [spawn] and captures in its handlers. *)
Lemma executeCommand_running path_resolve process_env spawn_throws aliases
    args startTime child c st :
  executeCommand path_resolve process_env spawn_throws aliases args startTime
    = Running child c st ->
  st = Exec.init
  /\ resolveCommand aliases (Args.command args) = Returns (Spawn.file child)
  /\ validateCwd path_resolve (default workspace (Args.cwd args))
     = Returns (Spawn.cwd child)
  /\ Closure.resolvedCmd c = Spawn.file child
  /\ Closure.resolvedCwd c = Spawn.cwd child
  /\ Closure.command c = Args.command args
  /\ Closure.startTime c = startTime
  /\ Closure.maxOutput c = default config.maxOutput (Args.maxOutput args)
  /\ Closure.timeout c = default config.defaultTimeout (Args.timeout args).
Proof.
  unfold executeCommand.
  destruct (resolveCommand aliases (Args.command args)) as [cmd|e];
    [|discriminate].
  destruct (validateCwd path_resolve _) as [dir|e]; [|discriminate].
  destruct (spawn_throws _); [discriminate|].
  intros H. injection H as <- <- <-. simpl. repeat split; reflexivity.
Qed.

(** C2: when the subprocess of a call streams and then exits, the history
    is the former history followed by exactly one entry (the resolved
    command, the directory the subprocess ran in, [success] as "the code
    is 0", the code, the duration and the timestamp) if the result is not
    timed out, and is the former history unchanged if it is. *)
Theorem history_appended_iff_not_timed_out path_resolve process_env
    spawn_throws aliases args startTime child c st hist evs code now isoNow :
  executeCommand path_resolve process_env spawn_throws aliases args startTime
    = Running child c st ->
  forallb streaming evs = true ->
  exists r,
    Exec.settled (fst (run c (st, hist) (evs ++ [Close code now isoNow])))
      = Some (Completed r)
    /\ snd (run c (st, hist) (evs ++ [Close code now isoNow]))
       = if ExecutionResult.timedOut r then hist
         else (hist ++ [HistoryEntry.mk (Spawn.file child) (Spawn.cwd child)
                          (bool_decide (code = Some 0)) code
                          (now - startTime) isoNow])%list.
Proof.
  intros Hrun Hs.
  apply executeCommand_running in Hrun
    as (-> & _ & _ & Hcmd & Hcwd & _ & Ht & _).
  destruct (run_to_close c hist evs code now isoNow Hs) as [Hp Hh].
  eexists; split; [exact Hp|]. rewrite Hh. simpl.
  unfold history_entry. now rewrite Hcmd, Hcwd, Ht.
Qed.

Lemma history_appended_iff_not_timed_out_witness :
  let c := Closure.mk "echo hi" "echo hi" workspace 30000 1048576 5 30000 in
  snd (run c (Exec.init, []) ([Data Stdout "hi"] ++ [Close (Some 0) 9 "t"]))
  = [HistoryEntry.mk "echo hi" workspace true (Some 0) 4 "t"].
Proof.
  intros c.
  assert (Hrun : executeCommand Returns ∅ (fun _ => None) ∅
                   (Args.mk "echo hi" None None None None) 5
                 = Running (Spawn.mk "echo hi" "/bin/bash" workspace (∅ ∪ ∅))
                     c Exec.init) by reflexivity.
  destruct (history_appended_iff_not_timed_out _ _ _ _ _ _ _ _ _ []
              [Data Stdout "hi"] (Some 0) 9 "t" Hrun eq_refl)
    as (r & Hr & Hh).
  rewrite Hh. vm_compute in Hr. injection Hr as <-. reflexivity.
Defined.

(** ** Killing *)

Lemma kill_inv_step c st hist ev :
  kill_inv st -> kill_inv (fst (step c (st, hist) ev)).
Proof.
  unfold kill_inv. destruct st as [out err k t tm n p]. simpl.
  intros [Hn Ht].
  destruct ev as [s chunk| |code now isoNow|message]; simpl.
  - unfold outputHandler; simpl. destruct (_ <? _).
    + destruct k, t; simpl in *; subst; auto.
    + destruct s; simpl; auto.
  - unfold fire, doTimeout; simpl. destruct tm; simpl; auto.
    destruct k, t; simpl in *; subst; auto.
  - unfold resolve; simpl. destruct p; simpl; auto.
  - unfold on_error, resolve; simpl. destruct p; simpl; auto.
Qed.

Lemma kill_inv_run c evs : forall st hist,
  kill_inv st -> kill_inv (fst (run c (st, hist) evs)).
Proof.
  induction evs as [|ev evs IH]; intros st hist Hinv; [exact Hinv|].
  rewrite run_cons.
  pose proof (kill_inv_step c st hist ev Hinv) as H1.
  destruct (step c (st, hist) ev) as [st1 hist1]. now apply IH.
Qed.

(** Once [killed] is set no handler kills again or changes [timedOut]. *)
Lemma killed_step c st hist ev :
  Exec.killed st = true ->
  let st' := fst (step c (st, hist) ev) in
  Exec.killed st' = true
  /\ Exec.sigkills st' = Exec.sigkills st
  /\ Exec.timedOut st' = Exec.timedOut st.
Proof.
  destruct st as [out err k t tm n p]. simpl. intros ->.
  destruct ev as [s chunk| |code now isoNow|message]; simpl.
  - unfold outputHandler; simpl. destruct (_ <? _); [|destruct s]; simpl; auto.
  - unfold fire, doTimeout; simpl. destruct tm; simpl; auto.
  - unfold resolve; simpl. destruct p; simpl; auto.
  - unfold on_error, resolve; simpl. destruct p; simpl; auto.
Qed.

Lemma killed_run c evs : forall st hist,
  Exec.killed st = true ->
  let st' := fst (run c (st, hist) evs) in
  Exec.killed st' = true
  /\ Exec.sigkills st' = Exec.sigkills st
  /\ Exec.timedOut st' = Exec.timedOut st.
Proof.
  induction evs as [|ev evs IH]; intros st hist Hk; [now repeat split|].
  cbv zeta. rewrite run_cons.
  pose proof (killed_step c st hist ev Hk) as H1.
  destruct (step c (st, hist) ev) as [st1 hist1]. simpl in H1.
  destruct H1 as (Hk1 & Hn1 & Ht1).
  destruct (IH st1 hist1 Hk1) as (Hk2 & Hn2 & Ht2).
  rewrite <- Hn1, <- Ht1. now repeat split.
Qed.

(** C6: in every execution [child.kill('SIGKILL')] is called at most once.
    Once either trigger has killed, no later event kills again or changes
    [timedOut].  The overflow trigger (a chunk arriving while the combined
    size of the buffers exceeds [maxOutput]) drops the chunk, never sets
    [timedOut], and kills only if nothing has killed before; the timeout
    trigger does nothing at all if something has killed before. *)
Theorem kill_sent_at_most_once c hist evs evs' :
  let st := fst (run c (Exec.init, hist) evs) in
  let st' := fst (run c (run c (Exec.init, hist) evs) evs') in
  (Exec.sigkills st <= 1)%nat
  /\ (Exec.timedOut st = true -> Exec.killed st = true)
  /\ (Exec.killed st = true ->
      Exec.sigkills st' = Exec.sigkills st
      /\ Exec.timedOut st' = Exec.timedOut st)
  /\ (forall chunk s,
        Closure.maxOutput c < totalLen st ->
        let st1 := outputHandler c st chunk s in
        Exec.stdout st1 = Exec.stdout st
        /\ Exec.stderr st1 = Exec.stderr st
        /\ Exec.timedOut st1 = Exec.timedOut st
        /\ Exec.killed st1 = true
        /\ Exec.sigkills st1 = 1%nat)
  /\ (if Exec.killed st then doTimeout c st = st
      else Exec.timedOut (doTimeout c st) = true
           /\ Exec.killed (doTimeout c st) = true
           /\ Exec.sigkills (doTimeout c st) = 1%nat).
Proof.
  intros st st'.
  assert (Hinv : kill_inv st).
  { apply kill_inv_run. split; [reflexivity | discriminate]. }
  destruct Hinv as [Hn Ht].
  split; [rewrite Hn; destruct (Exec.killed st); lia|].
  split; [exact Ht|].
  split.
  { intros Hk. subst st'.
    pose proof (killed_run c evs' st (snd (run c (Exec.init, hist) evs)) Hk) as H.
    cbv zeta in H. subst st.
    rewrite <- surjective_pairing in H. tauto. }
  split.
  { intros chunk s Hover. unfold outputHandler. fold (totalLen st).
    apply Z.ltb_lt in Hover. rewrite Hover.
    destruct (Exec.killed st) eqn:Hk; simpl.
    - now rewrite Hn.
    - destruct (Exec.timedOut st) eqn:Hto; [now specialize (Ht eq_refl)|].
      simpl. now rewrite Hn. }
  unfold doTimeout.
  destruct (Exec.killed st) eqn:Hk; [reflexivity|].
  destruct (Exec.timedOut st) eqn:Hto; [now specialize (Ht eq_refl)|].
  simpl. now rewrite Hn.
Qed.

(** ** The working directory *)

Lemma startsWith_spec (s prefix : string) :
  JsString.startsWith s prefix = true <-> exists rest, s = prefix ++ rest.
Proof.
  revert s; induction prefix as [|p prefix IH]; intros s; simpl.
  - split; [intros _; now exists s | reflexivity].
  - destruct s as [|a s]; simpl.
    + split; [discriminate | intros [rest H]; discriminate].
    + destruct (Ascii.eqb_spec p a) as [->|Hne].
      * rewrite IH. split; intros [rest H]; exists rest;
          rewrite string_app_cons in *; congruence.
      * split; [discriminate|].
        intros [rest H]. rewrite string_app_cons in H. congruence.
Qed.

(** Every value the promise is resolved with carries the directory the
    handlers captured. *)
Lemma settled_cwd_step c st hist ev :
  (forall r, Exec.settled st = Some r -> result_cwd r = Closure.resolvedCwd c) ->
  forall r, Exec.settled (fst (step c (st, hist) ev)) = Some r ->
            result_cwd r = Closure.resolvedCwd c.
Proof.
  intros Hinv r. destruct ev as [s chunk| |code now isoNow|message].
  - rewrite (proj2 (streaming_step c st hist (Data s chunk) eq_refl)). apply Hinv.
  - rewrite (proj2 (streaming_step c st hist Timeout eq_refl)). apply Hinv.
  - simpl. unfold resolve. rewrite settled_clearTimeout.
    destruct (Exec.settled st) as [r0|] eqn:Hp; simpl.
    + rewrite Hp. apply Hinv.
    + intros H. injection H as <-. reflexivity.
  - simpl. unfold on_error, resolve. rewrite settled_clearTimeout.
    destruct (Exec.settled st) as [r0|] eqn:Hp; simpl.
    + rewrite Hp. apply Hinv.
    + intros H. injection H as <-. reflexivity.
Qed.

Lemma settled_cwd_run c evs : forall st hist,
  (forall r, Exec.settled st = Some r -> result_cwd r = Closure.resolvedCwd c) ->
  forall r, Exec.settled (fst (run c (st, hist) evs)) = Some r ->
            result_cwd r = Closure.resolvedCwd c.
Proof.
  induction evs as [|ev evs IH]; intros st hist Hinv; [exact Hinv|].
  rewrite run_cons.
  pose proof (settled_cwd_step c st hist ev Hinv) as H1.
  destruct (step c (st, hist) ev) as [st1 hist1]. now apply IH.
Qed.

(** C5, at the command "toString" with [cwd = "/etc"]: the directory is
    outside the allow-list, so the request should run in the workspace
    root; but the read [aliases["toString"]] finds the function inherited
    from [Object.prototype], alias resolution throws before the directory
    is looked at, and the executor rejects the request without spawning
    anything, whatever the runtime would have done. *)
Theorem outside_cwd_with_inherited_name_rejects path_resolve process_env
    spawn_throws startTime id :
  isAllowed "/etc" = false
  /\ executeCommand path_resolve process_env spawn_throws ∅
       (Args.mk "toString" (Some "/etc") None None None) startTime
     = Rejected not_a_function
  /\ execute_reply id (Throws not_a_function)
     = Response.mk id (ErrorReply (-32000) "Command failed").
Proof. repeat split. Qed.

(** ** Truncation of the output *)

(** With a positive cap, [stdout] of the result is the last [maxOutput]
    code units of the buffer and is no longer than the cap; [stderr]
    likewise, unless the execution timed out, in which case it is the whole
    buffer. *)
Lemma truncation_with_positive_cap c st code now :
  0 < Closure.maxOutput c ->
  let m := Z.to_nat (Closure.maxOutput c) in
  let r := close_result c st code now in
  ExecutionResult.stdout r
    = JsString.drop (String.length (Exec.stdout st) - m) (Exec.stdout st)
  /\ Z.of_nat (String.length (ExecutionResult.stdout r)) <= Closure.maxOutput c
  /\ ExecutionResult.stderr r
     = (if Exec.timedOut st then Exec.stderr st
        else JsString.drop (String.length (Exec.stderr st) - m) (Exec.stderr st))
  /\ (Exec.timedOut st = false ->
      Z.of_nat (String.length (ExecutionResult.stderr r)) <= Closure.maxOutput c).
Proof.
  intros Hm m r. subst r. simpl.
  destruct (string_slice_tail (Exec.stdout st) _ Hm) as [Ho Hlo].
  destruct (string_slice_tail (Exec.stderr st) _ Hm) as [He Hle].
  repeat split; try assumption.
  - destruct (Exec.timedOut st); [reflexivity | exact He].
  - intros ->. exact Hle.
Qed.

(** C8, at [maxOutput = 0]: a request with cap 0 whose subprocess writes
    "x" and exits with code 0 is resolved with [stdout = "x"]; the result
    is not the last 0 code units of the buffer, and it is longer than the
    cap. *)
Theorem zero_cap_returns_whole_buffer :
  exists child c r,
    executeCommand Returns ∅ (fun _ => None) ∅
      (Args.mk "echo x" None None None (Some 0)) 0 = Running child c Exec.init
    /\ Closure.maxOutput c = 0
    /\ Exec.settled
         (fst (run c (Exec.init, []) [Data Stdout "x"; Close (Some 0) 1 "t"]))
       = Some (Completed r)
    /\ ExecutionResult.stdout r = "x"
    /\ ~ (Z.of_nat (String.length (ExecutionResult.stdout r))
          <= Closure.maxOutput c).
Proof.
  eexists _, _, _. split; [reflexivity|]. split; [reflexivity|].
  split; [reflexivity|]. split; [reflexivity|]. simpl. lia.
Qed.

(** ** Rejection and spawn failure *)

(** The executor throws when alias resolution throws, and then neither
    the directory nor [spawn] is reached. *)
Lemma executeCommand_rejected path_resolve process_env spawn_throws aliases
    args startTime e :
  resolveCommand aliases (Args.command args) = Throws e ->
  executeCommand path_resolve process_env spawn_throws aliases args startTime
  = Rejected e.
Proof. unfold executeCommand. now intros ->. Qed.

(** The ['error'] handler on a pending promise: the promise is resolved
    with an object that has [success = false] and the error message and no
    exit code, and the history is as before. *)
Lemma on_error_pending c st hist message :
  Exec.settled st = None ->
  Exec.settled (fst (step c (st, hist) (Error message)))
    = Some (Failed (SpawnFailure.mk false message (Closure.resolvedCwd c)
                      (Closure.command c) (Closure.resolvedCmd c)))
  /\ snd (step c (st, hist) (Error message)) = hist.
Proof.
  intros Hp. simpl. unfold on_error, resolve.
  rewrite settled_clearTimeout, Hp. now split.
Qed.

(** A process that streams and then fails: the promise is resolved with
    the failure and the history is as before. *)
Lemma run_to_error c hist evs message :
  forallb streaming evs = true ->
  let s' := run c (Exec.init, hist) (evs ++ [Error message]) in
  Exec.settled (fst s')
    = Some (Failed (SpawnFailure.mk false message (Closure.resolvedCwd c)
                      (Closure.command c) (Closure.resolvedCmd c)))
  /\ snd s' = hist.
Proof.
  intros Hs s'. subst s'. rewrite run_app.
  destruct (streaming_run c evs Exec.init hist Hs) as [Hh Hp].
  destruct (run c (Exec.init, hist) evs) as [st hist1].
  simpl in Hh, Hp. subst hist1. apply on_error_pending. exact Hp.
Qed.

(** The ['close'] handler does not ask whether the ['error'] handler has
    run: when ['close'] follows ['error'], the promise keeps the failure it
    was resolved with, and an entry is pushed all the same. *)
Lemma close_after_error c hist message code now isoNow :
  let s' := run c (Exec.init, hist) [Error message; Close code now isoNow] in
  Exec.settled (fst s')
    = Some (Failed (SpawnFailure.mk false message (Closure.resolvedCwd c)
                      (Closure.command c) (Closure.resolvedCmd c)))
  /\ snd s' = (hist ++ [history_entry c code now isoNow])%list.
Proof. split; reflexivity. Qed.

(** C9, at the command "constructor": with an empty alias table the read
    [aliases["constructor"]] finds the function inherited from
    [Object.prototype], which is truthy and has no [split]; the executor
    throws, so the promise is rejected and the [catch] callback of the
    dispatcher answers with error -32000. *)
Theorem inherited_name_rejects path_resolve process_env spawn_throws
    startTime id :
  executeCommand path_resolve process_env spawn_throws ∅
    (Args.mk "constructor" None None None None) startTime
  = Rejected not_a_function
  /\ execute_reply id (Throws not_a_function)
     = Response.mk id (ErrorReply (-32000) "Command failed").
Proof. split; reflexivity. Qed.

(** ** The history query *)

Lemma array_slice_tail {A} (l : list A) (k : Z) :
  0 < k ->
  array_slice l (- k) = drop (length l - Z.to_nat k) l
  /\ length (array_slice l (- k)) = Nat.min (Z.to_nat k) (length l).
Proof.
  intros Hk. unfold array_slice. rewrite slice_from_tail by exact Hk.
  split; [reflexivity|]. rewrite length_drop. lia.
Qed.

(** For a positive limit [k] the query returns the last [min k N] entries,
    most recent first. *)
Lemma getHistory_positive_limit (commandHistory : list HistoryEntry.t) (k : Z) :
  0 < k ->
  let N := length commandHistory in
  let n := Nat.min (Z.to_nat k) N in
  getHistory commandHistory (Some k) = rev (drop (N - n) commandHistory)
  /\ length (getHistory commandHistory (Some k)) = n.
Proof.
  intros Hk N n. unfold getHistory. simpl.
  destruct (array_slice_tail commandHistory k Hk) as [Hs Hl].
  rewrite length_rev, Hl. split; [|reflexivity].
  rewrite Hs. f_equal. f_equal. lia.
Qed.

(** C7, at [limit = 0]: [slice(-0)] is [slice(0)], so the query returns
    every entry of the log instead of the last [min 0 N = 0] entries. *)
Theorem getHistory_limit_zero (commandHistory : list HistoryEntry.t) :
  getHistory commandHistory (Some 0) = rev commandHistory
  /\ length (getHistory commandHistory (Some 0)) = length commandHistory.
Proof.
  unfold getHistory, array_slice. simpl default.
  rewrite slice_from_zero. simpl. now rewrite length_rev.
Qed.

(** ** Alias resolution *)

(** The own properties of a table after an insertion or a deletion. *)
Lemma table_lookup_insert_eq (aliases : alias_table) k v :
  <[k := v]> aliases !! k = Some v.
Proof.
  change ((<[k := v]> (Table.own aliases) : gmap string json) !! k = Some v).
  apply lookup_insert_eq.
Qed.

Lemma table_lookup_insert_ne (aliases : alias_table) k k' v :
  k <> k' -> <[k := v]> aliases !! k' = aliases !! k'.
Proof.
  change (k <> k' ->
          (<[k := v]> (Table.own aliases) : gmap string json) !! k'
          = Table.own aliases !! k').
  apply lookup_insert_ne.
Qed.

Lemma table_lookup_delete_eq (aliases : alias_table) k :
  delete k aliases !! k = None.
Proof.
  change ((delete k (Table.own aliases) : gmap string json) !! k = None).
  apply lookup_delete_eq.
Qed.

Lemma table_lookup_delete_ne (aliases : alias_table) k k' :
  k <> k' -> delete k aliases !! k' = aliases !! k'.
Proof.
  change (k <> k' ->
          (delete k (Table.own aliases) : gmap string json) !! k'
          = Table.own aliases !! k').
  apply lookup_delete_ne.
Qed.

Lemma table_delete_id (aliases : alias_table) k :
  aliases !! k = None -> delete k aliases = aliases.
Proof.
  destruct aliases as [own proto]. intros H.
  change (Table.mk (delete k own) proto = Table.mk own proto).
  f_equal. now apply delete_id.
Qed.

(** An assignment under a name other than [__proto__] defines or updates
    the own property of that name, whatever the prototype. *)
Lemma alias_set_ordinary (aliases : alias_table) key c :
  key <> "__proto__" -> alias_set aliases key (VJson c) = <[key := c]> aliases.
Proof.
  intros Hkey. unfold alias_set.
  now destruct (String.eqb_spec key "__proto__").
Qed.

(** An own property hides the prototype. *)
Lemma alias_get_own (aliases : alias_table) k v :
  aliases !! k = Some v -> alias_get aliases k = Value v.
Proof. unfold alias_get. now intros ->. Qed.

Lemma alias_get_none (aliases : alias_table) k :
  aliases !! k = None ->
  alias_get aliases k = proto_get (Table.proto aliases) k.
Proof. unfold alias_get. now intros ->. Qed.

(** Resolution uses the table for one read, that of the first token. *)
Lemma resolveCommand_reads_first (aliases aliases' : alias_table) cmd :
  alias_get aliases' (hd "" (JsString.split_ws (JsString.trim cmd)))
  = alias_get aliases (hd "" (JsString.split_ws (JsString.trim cmd))) ->
  resolveCommand aliases' cmd = resolveCommand aliases cmd.
Proof. unfold resolveCommand. now intros ->. Qed.

(** What resolution does, by what the read of the first token yields: a
    non-empty string is expanded; [undefined] and the falsy values leave
    the input as it is; anything else, having no [split], makes the call
    throw. *)
Lemma resolveCommand_by_entry (aliases : alias_table) cmd :
  let parts := JsString.split_ws (JsString.trim cmd) in
  resolveCommand aliases cmd
  = match alias_get aliases (hd "" parts) with
    | Value (JStr EmptyString) => Returns cmd
    | Value (JStr template) =>
        Returns (JsString.join_sp (JsString.split_ws template ++ tl parts))
    | Value v => if truthy_json v then Throws not_a_function else Returns cmd
    | Builtin => Throws not_a_function
    | Missing => Returns cmd
    end.
Proof.
  intros parts. unfold resolveCommand. fold parts.
  destruct (alias_get aliases (hd "" parts)) as [[| | |[|a t]| |]| |];
    reflexivity.
Qed.

(** *** Splitting and joining *)

Lemma split_go_cons b s : exists t ts, JsString.split_go b s = t :: ts.
Proof.
  revert b; induction s as [|c s IH]; intros b; simpl; [now eexists _, _|].
  destruct (JsString.is_ws c).
  - destruct b; [apply IH | now eexists _, _].
  - destruct (IH false) as (t & ts & ->). now eexists _, _.
Qed.

(** The pieces of a split contain no white space. *)
Lemma split_go_ws_free b s : Forall (fun t => ws_free t = true) (JsString.split_go b s).
Proof.
  revert b; induction s as [|c s IH]; intros b; simpl.
  - now repeat constructor.
  - destruct (JsString.is_ws c) eqn:Hc.
    + destruct b; [apply IH | constructor; [reflexivity | apply IH]].
    + specialize (IH false).
      destruct (JsString.split_go false s) as [|t ts]; [now repeat constructor; simpl; rewrite Hc|].
      inversion IH as [|? ? Ht Hts]; subst.
      constructor; [simpl; now rewrite Hc, Ht | exact Hts].
Qed.

(** A separator before the string changes nothing but a leading empty
    piece. *)
Lemma words_after_separator s :
  List.filter nonempty (JsString.split_go true s) = words s.
Proof.
  unfold words, JsString.split_ws. destruct s as [|c s]; [reflexivity|].
  simpl. destruct (JsString.is_ws c); reflexivity.
Qed.

Lemma split_ws_free p : ws_free p = true -> JsString.split_ws p = [p].
Proof.
  unfold JsString.split_ws. induction p as [|c p IH]; simpl; [reflexivity|].
  intros H. apply andb_prop in H as [Hc Hp]. apply negb_true_iff in Hc.
  now rewrite Hc, (IH Hp).
Qed.

Lemma split_ws_free_then_space p rest :
  ws_free p = true ->
  JsString.split_ws (p ++ " " ++ rest) = p :: JsString.split_go true rest.
Proof.
  unfold JsString.split_ws. induction p as [|c p IH]; [reflexivity|].
  intros H. simpl in H. apply andb_prop in H as [Hc Hp]. apply negb_true_iff in Hc.
  rewrite string_app_cons. simpl JsString.split_go. now rewrite Hc, (IH Hp).
Qed.

(** The tokens of a space-joined list of pieces are its non-empty pieces. *)
Lemma words_join l :
  Forall (fun t => ws_free t = true) l ->
  words (JsString.join_sp l) = List.filter nonempty l.
Proof.
  induction l as [|p [|q l] IH]; intros Hl.
  - reflexivity.
  - inversion Hl as [|? ? Hp _]; subst. unfold words. simpl JsString.join_sp.
    now rewrite (split_ws_free p Hp).
  - inversion Hl as [|? ? Hp Hrest]; subst.
    change (JsString.join_sp (p :: q :: l))
      with (p ++ " " ++ JsString.join_sp (q :: l)).
    unfold words at 1. rewrite (split_ws_free_then_space _ _ Hp).
    cbn [List.filter]. rewrite words_after_separator, (IH Hrest).
    reflexivity.
Qed.

Lemma ends_ws_trimEnd s : ends_ws (JsString.trimEnd s) = false.
Proof.
  induction s as [|c s IH]; [reflexivity|]. simpl.
  destruct (JsString.is_ws c) eqn:Hc; simpl.
  - destruct (JsString.trimEnd s) as [|d r] eqn:Hr; [reflexivity|]. exact IH.
  - destruct (JsString.trimEnd s) as [|d r] eqn:Hr; [exact Hc | exact IH].
Qed.

(** In a string that does not end in white space, every piece after the
    first is non-empty. *)
Lemma split_go_nonempty s :
  ends_ws s = false ->
  Forall (fun t => nonempty t = true) (tl (JsString.split_go false s))
  /\ (s <> EmptyString ->
      Forall (fun t => nonempty t = true) (JsString.split_go true s)).
Proof.
  induction s as [|c s IH]; intros Hend; [split; [constructor | congruence]|].
  assert (Hs : ends_ws s = false /\ (JsString.is_ws c = true -> s <> EmptyString)).
  { destruct s as [|d s]; [|split; [exact Hend | congruence]].
    simpl in Hend. split; [reflexivity | congruence]. }
  destruct Hs as [Hs Hne]. destruct (IH Hs) as [IHf IHt].
  simpl JsString.split_go.
  destruct (JsString.is_ws c) eqn:Hc.
  - specialize (IHt (Hne eq_refl)). split; [exact IHt | intros _; exact IHt].
  - destruct (split_go_cons false s) as (t & ts & Heq). rewrite Heq in *.
    simpl in IHf. split; [exact IHf | intros _; now constructor].
Qed.

(** The pieces of a trimmed input after the first are tokens: non-empty
    and free of white space. *)
Lemma rest_of_trimmed_input cmd :
  let rest := tl (JsString.split_ws (JsString.trim cmd)) in
  Forall (fun t => nonempty t = true) rest
  /\ Forall (fun t => ws_free t = true) rest.
Proof.
  intros rest. subst rest. unfold JsString.split_ws, JsString.trim. split.
  - apply split_go_nonempty, ends_ws_trimEnd.
  - pose proof (split_go_ws_free false (JsString.trimEnd (JsString.trimStart cmd))) as H.
    destruct (JsString.split_go _ _); [constructor | now inversion H].
Qed.

Lemma filter_all_true {A} (f : A -> bool) (l : list A) :
  Forall (fun x => f x = true) l -> List.filter f l = l.
Proof.
  induction 1 as [|x l Hx _ IH]; simpl; [reflexivity | now rewrite Hx, IH].
Qed.

(** The tokens of an expansion: those of the template, then the remaining
    tokens of the input, unchanged. *)
Lemma words_of_expansion template cmd :
  let rest := tl (JsString.split_ws (JsString.trim cmd)) in
  words (JsString.join_sp (JsString.split_ws template ++ rest))
  = (words template ++ rest)%list.
Proof.
  intros rest. destruct (rest_of_trimmed_input cmd) as [Hne Hfree]. fold rest in Hne, Hfree.
  rewrite words_join.
  - rewrite List.filter_app, (filter_all_true _ _ Hne). reflexivity.
  - apply Forall_app. split; [apply split_go_ws_free | exact Hfree].
Qed.

(** C3, as stated, fails: an alias whose template is the empty string is a
    key of the table, yet a command that starts with it is returned
    unchanged. *)
Lemma empty_template_is_not_expanded : ~ resolves_every_key.
Proof.
  intros H.
  specialize (H {["e" := JStr ""]} "e  x" "" eq_refl).
  vm_compute in H. discriminate H.
Qed.

(** C3, amended: the input is trimmed and split on white space.  If its
    first token is a key of the table whose template is a non-empty string,
    the result is the template's parts followed by the remaining parts of
    the input, joined by single spaces, and its tokens are those of the
    template followed by the remaining tokens of the input, unchanged.  If
    the first token is a key whose template is the empty string, or is no
    key while the prototype of the table has no member of that name either,
    the input is returned unchanged.  The remaining parts of the input are
    tokens, and the table is used for nothing but the read of the first
    token, so the result is never resolved again. *)
Theorem resolveCommand_first_token (aliases : alias_table) (cmd : string) :
  let parts := JsString.split_ws (JsString.trim cmd) in
  let first := hd "" parts in
  let rest := tl parts in
  (forall template,
     aliases !! first = Some (JStr template) ->
     template <> EmptyString ->
     let result := JsString.join_sp (JsString.split_ws template ++ rest) in
     resolveCommand aliases cmd = Returns result
     /\ words result = (words template ++ rest)%list)
  /\ (aliases !! first = Some (JStr EmptyString) ->
      resolveCommand aliases cmd = Returns cmd)
  /\ (aliases !! first = None ->
      proto_get (Table.proto aliases) first = Missing ->
      resolveCommand aliases cmd = Returns cmd)
  /\ Forall (fun t => nonempty t = true /\ ws_free t = true) rest
  /\ forall aliases' : alias_table,
       alias_get aliases' first = alias_get aliases first ->
       resolveCommand aliases' cmd = resolveCommand aliases cmd.
Proof.
  intros parts first rest.
  pose proof (resolveCommand_by_entry aliases cmd) as Hres.
  cbv zeta in Hres. subst rest first parts.
  split; [|split; [|split; [|split]]].
  - intros template Hget Hne result. subst result.
    rewrite (alias_get_own _ _ _ Hget) in Hres.
    destruct template as [|a t]; [congruence|].
    split; [exact Hres | apply words_of_expansion].
  - intros Hget. now rewrite (alias_get_own _ _ _ Hget) in Hres.
  - intros Hget Hproto.
    now rewrite (alias_get_none _ _ Hget), Hproto in Hres.
  - destruct (rest_of_trimmed_input cmd) as [Hne Hfree].
    apply Forall_forall. intros t Ht. split.
    + now apply (proj1 (Forall_forall _ _) Hne).
    + now apply (proj1 (Forall_forall _ _) Hfree).
  - intros aliases'. apply resolveCommand_reads_first.
Qed.

Lemma resolveCommand_first_token_witness :
  let aliases : alias_table := {["gp" := JStr "git pull origin main"]} in
  (resolveCommand aliases " gp   --x " = Returns "git pull origin main --x"
   /\ words "git pull origin main --x"
      = (words "git pull origin main" ++ ["--x"])%list)
  /\ resolveCommand {["e" := JStr ""]} "e  x" = Returns "e  x"
  /\ resolveCommand aliases " ls  -l" = Returns " ls  -l".
Proof.
  intros aliases. split; [|split].
  - exact (proj1 (resolveCommand_first_token aliases " gp   --x ")
             "git pull origin main" eq_refl ltac:(discriminate)).
  - exact (proj1 (proj2 (resolveCommand_first_token {["e" := JStr ""]} "e  x"))
             eq_refl).
  - exact (proj1 (proj2 (proj2 (resolveCommand_first_token aliases " ls  -l")))
             eq_refl eq_refl).
Defined.

(** The examples of the specification, and a template whose own first
    token is an alias. *)
Example resolve_gp :
  let aliases : alias_table :=
    {["gp" := JStr "git pull origin main"; "git" := JStr "hub"]} in
  resolveCommand aliases "gp --x" = Returns "git pull origin main --x"
  /\ resolveCommand aliases "x gp" = Returns "x gp".
Proof. split; reflexivity. Qed.

(** An object stored under the name [__proto__] becomes the prototype of
    the table: its members are then resolved like aliases, although the
    table has no entry under their names. *)
Example resolve_through_prototype :
  let aliases :=
    alias_set ∅ "__proto__" (VJson (JObj [("ls", JStr "ls -la")])) in
  aliases !! "ls" = None
  /\ aliases !! "__proto__" = None
  /\ resolveCommand aliases "ls /tmp" = Returns "ls -la /tmp".
Proof. repeat split. Qed.

(** ** The dispatcher *)

Lemma get_prop_or_empty (msg : json) (k : string) :
  get_prop (js_or (VJson msg) (VJson (JObj []))) k = get_prop (VJson msg) k.
Proof.
  unfold js_or. destruct (truthy (VJson msg)) eqn:Ht; [reflexivity|].
  destruct msg; try reflexivity. discriminate Ht.
Qed.

Section DispatcherFacts.

Variable string_to_integer : string -> Z.

(** Every effect of a tool call answers with the id it was given. *)
Lemma callTool_carries_id srv id params srv' effects :
  callTool string_to_integer srv id params = Returns (srv', effects) ->
  Forall (carries_id id) effects.
Proof.
  unfold callTool.
  repeat match goal with
         | |- context [if ?b then _ else _] => destruct b
         | |- context [mbind _ ?m] => destruct m; simpl
         end;
    intros H; try discriminate H; injection H as <- <-;
    repeat constructor; intros []; reflexivity.
Qed.

(** When the handler returns, every response it emits, at once or when an
    execution settles, carries the [id] member of the request. *)
Lemma handleMessage_carries_id srv msg srv' effects :
  handleMessage string_to_integer srv msg = Returns (srv', effects) ->
  Forall (carries_id (get_prop (VJson msg) "id")) effects.
Proof.
  unfold handleMessage. rewrite !get_prop_or_empty.
  destruct (is_str _ "initialize");
    [intros H; injection H as <- <-; repeat constructor|].
  destruct (is_str _ "notifications/initialized");
    [intros H; injection H as <- <-; constructor|].
  destruct (is_str _ "tools/call");
    [apply callTool_carries_id|].
  intros H; injection H as <- <-; repeat constructor.
Qed.

(** C10: when [addAlias] is called with [name] or [command] absent or
    equal to the empty string, the handler answers with error -32602
    "Missing required fields: name, command" and nothing else, and the
    tables are left as they were. *)
Theorem addAlias_requires_name_and_command srv msg :
  let id := get_prop (VJson msg) "id" in
  let params := get_prop (VJson msg) "params" in
  let toolArgs := js_or (get_prop params "arguments") (VJson (JObj [])) in
  get_prop (VJson msg) "method" = VJson (JStr "tools/call") ->
  get_prop params "name" = VJson (JStr "addAlias") ->
  absent_or_empty (get_prop toolArgs "name")
  \/ absent_or_empty (get_prop toolArgs "command") ->
  handleMessage string_to_integer srv msg
  = Returns
      (srv,
       [Send (Response.mk id
                (ErrorReply (-32602) "Missing required fields: name, command"))]).
Proof.
  intros id params toolArgs Hmethod Hname Hargs.
  unfold handleMessage. rewrite !get_prop_or_empty.
  fold id. fold params. rewrite Hmethod. simpl is_str. cbv iota.
  unfold callTool. fold toolArgs. rewrite Hname. simpl is_str. cbv iota.
  assert (Hfalsy : truthy (get_prop toolArgs "name")
                   && truthy (get_prop toolArgs "command") = false).
  { apply andb_false_iff.
    destruct Hargs as [[H|H]|[H|H]]; rewrite H; auto. }
  now rewrite Hfalsy.
Qed.

End DispatcherFacts.

Lemma addAlias_requires_name_and_command_witness :
  let msg :=
    JObj [("id", JNum 3); ("method", JStr "tools/call");
          ("params",
           JObj [("name", JStr "addAlias");
                 ("arguments", JObj [("name", JStr ""); ("command", JStr "ls")])])] in
  let srv := Server.mk {["gp" := JStr "git pull"]} [] in
  handleMessage (fun _ => 0) srv msg
  = Returns
      (srv,
       [Send (Response.mk (VJson (JNum 3))
                (ErrorReply (-32602) "Missing required fields: name, command"))]).
Proof.
  intros msg srv.
  apply (addAlias_requires_name_and_command (fun _ => 0) srv msg);
    [reflexivity | reflexivity | left; right; reflexivity].
Defined.

(** ** The framer *)

Section ReaderFacts.

Variable string_to_integer : string -> Z.
Variable JSON_parse : string -> option json.

(** The line that completes a body: whatever the [try] block does, the
    framer is back in its initial state (reading headers, empty buffer,
    expected length zero). *)
Lemma on_line_completes f srv line :
  Framer.readingBody f = true ->
  Framer.contentLength f
    <= Z.of_nat (String.length (Framer.buffer f ++ line ++ newline)) ->
  on_line string_to_integer JSON_parse (f, srv) line
  = (Framer.init,
     fst (parse_and_handle string_to_integer JSON_parse srv
            (Framer.buffer f ++ line ++ newline)),
     snd (parse_and_handle string_to_integer JSON_parse srv
            (Framer.buffer f ++ line ++ newline))).
Proof.
  intros Hbody Hlen. unfold on_line. rewrite Hbody. simpl negb. cbv iota.
  apply Z.leb_le in Hlen. rewrite Hlen.
  now destruct (parse_and_handle _ _ _ _).
Qed.

(** A body that does not parse: one parse-error response with a null id,
    and the tables as before. *)
Lemma parse_failure srv buffer :
  JSON_parse buffer = None ->
  parse_and_handle string_to_integer JSON_parse srv buffer
  = (srv, [Send parse_error])
  /\ Response.id parse_error = VJson JNull.
Proof. unfold parse_and_handle. now intros ->. Qed.

(** A body that parses and whose handler returns: every response carries
    the id of the request. *)
Lemma parse_success srv buffer msg srv' effects :
  JSON_parse buffer = Some msg ->
  handleMessage string_to_integer srv msg = Returns (srv', effects) ->
  parse_and_handle string_to_integer JSON_parse srv buffer = (srv', effects)
  /\ Forall (carries_id (get_prop (VJson msg) "id")) effects.
Proof.
  unfold parse_and_handle. intros -> H. rewrite H.
  split; [reflexivity|]. eapply handleMessage_carries_id; exact H.
Qed.

Lemma read_lines_cons s line rest :
  read_lines string_to_integer JSON_parse s (line :: rest)
  = let '(f, srv, effects) := on_line string_to_integer JSON_parse s line in
    let '(f', srv', effects') :=
      read_lines string_to_integer JSON_parse (f, srv) rest in
    (f', srv', (effects ++ effects')%list).
Proof. reflexivity. Qed.

(** After the line that completes a body, the remaining lines are read as
    by a fresh framer. *)
Lemma reader_goes_on f srv line rest :
  Framer.readingBody f = true ->
  Framer.contentLength f
    <= Z.of_nat (String.length (Framer.buffer f ++ line ++ newline)) ->
  let done :=
    parse_and_handle string_to_integer JSON_parse srv
      (Framer.buffer f ++ line ++ newline) in
  let next :=
    read_lines string_to_integer JSON_parse (Framer.init, fst done) rest in
  read_lines string_to_integer JSON_parse (f, srv) (line :: rest)
  = (fst (fst next), snd (fst next), (snd done ++ snd next)%list).
Proof.
  intros Hbody Hlen done next. rewrite read_lines_cons.
  rewrite (on_line_completes f srv line Hbody Hlen). fold done.
  subst next. now destruct (read_lines _ _ _ _) as [[f' srv'] effects'].
Qed.

End ReaderFacts.

(** C4, at a request whose tool name is the object [{toString: 0}]: the
    body parses and the request has id 7, but building the "Unknown tool"
    message throws inside the [try] block, and the [catch] clause answers
    with the parse-error response, whose id is null. *)
Theorem handler_exception_answered_as_parse_error string_to_integer srv :
  let JSON_parse text :=
    if String.eqb text (odd_tool_body ++ newline)
    then Some odd_tool_request else None in
  JSON_parse (odd_tool_body ++ newline) = Some odd_tool_request
  /\ get_prop (VJson odd_tool_request) "id" = VJson (JNum 7)
  /\ handleMessage string_to_integer srv odd_tool_request = Throws cannot_convert
  /\ on_line string_to_integer JSON_parse
       (Framer.mk "" (Z.of_nat (String.length odd_tool_body)) true, srv)
       odd_tool_body
     = (Framer.init, srv, [Send parse_error])
  /\ Response.id parse_error = VJson JNull.
Proof.
  intros JSON_parse.
  split; [reflexivity|]. split; [reflexivity|]. split; [reflexivity|].
  split; [|reflexivity]. vm_compute. reflexivity.
Qed.

(** * Further properties *)

(** ** The execution engine, beyond the claims *)

Lemma string_app_nil_r (s : string) : s ++ "" = s.
Proof.
  induction s as [|a s IH]; [reflexivity|].
  now rewrite string_app_cons, IH.
Qed.

Lemma string_app_assoc (s t u : string) : (s ++ t) ++ u = s ++ (t ++ u).
Proof.
  induction s as [|a s IH]; [reflexivity|].
  now rewrite !string_app_cons, IH.
Qed.

(** Each handler leaves both buffers as they are or appends to them. *)
Lemma step_extends c st hist ev :
  exists out err,
    Exec.stdout (fst (step c (st, hist) ev)) = Exec.stdout st ++ out
    /\ Exec.stderr (fst (step c (st, hist) ev)) = Exec.stderr st ++ err.
Proof.
  destruct ev as [s chunk| |code now isoNow|message]; simpl.
  - unfold outputHandler. destruct (_ <? _).
    + exists "", "". destruct (_ && _); simpl; now rewrite !string_app_nil_r.
    + destruct s; simpl.
      * exists chunk, "". now rewrite string_app_nil_r.
      * exists "", chunk. now rewrite string_app_nil_r.
  - unfold fire, doTimeout. destruct (Exec.timer st); simpl;
      try (exists "", ""; now rewrite !string_app_nil_r).
    destruct (_ && _); simpl.
    + exists "", (timeout_marker (Closure.timeout c)).
      now rewrite string_app_nil_r.
    + exists "", "". now rewrite !string_app_nil_r.
  - exists "", "". unfold resolve. simpl.
    destruct (Exec.settled st); simpl; now rewrite !string_app_nil_r.
  - exists "", "". unfold on_error, resolve. simpl.
    destruct (Exec.settled st); simpl; now rewrite !string_app_nil_r.
Qed.

(** X1: captured output is never lost or reordered.  Whatever events
    follow, each buffer afterwards is the buffer before with something
    appended. *)
Theorem buffers_only_grow c s evs :
  exists out err,
    Exec.stdout (fst (run c s evs)) = Exec.stdout (fst s) ++ out
    /\ Exec.stderr (fst (run c s evs)) = Exec.stderr (fst s) ++ err.
Proof.
  revert s; induction evs as [|ev evs IH]; intros [st hist].
  - exists "", "". simpl. now rewrite !string_app_nil_r.
  - rewrite run_cons.
    destruct (step_extends c st hist ev) as (o1 & e1 & Ho1 & He1).
    destruct (IH (step c (st, hist) ev)) as (o2 & e2 & Ho2 & He2).
    exists (o1 ++ o2), (e1 ++ e2). simpl fst at 2 4.
    now rewrite Ho2, He2, Ho1, He1, !string_app_assoc.
Qed.

(** [timedOut] is set by the timer and by nothing else. *)
Lemma timedOut_step c st hist ev :
  Exec.timedOut (fst (step c (st, hist) ev)) = true ->
  Exec.timedOut st = true \/ ev = Timeout.
Proof.
  destruct ev as [s chunk| |code now isoNow|message]; simpl; auto.
  - unfold outputHandler. destruct (_ <? _);
      [destruct (_ && _)|destruct s]; simpl; auto.
  - unfold resolve. simpl. destruct (Exec.settled st); simpl; auto.
  - unfold on_error, resolve. simpl. destruct (Exec.settled st); simpl; auto.
Qed.

(** X2: an execution is marked timed out only if its timer fired: after
    any events that do not include the timer event, [timedOut] is false, so
    neither output overflow nor the end of the process sets it. *)
Theorem timed_out_only_by_timer c hist evs :
  Exec.timedOut (fst (run c (Exec.init, hist) evs)) = true -> In Timeout evs.
Proof.
  assert (H : forall s,
             Exec.timedOut (fst (run c s evs)) = true ->
             Exec.timedOut (fst s) = true \/ In Timeout evs).
  { induction evs as [|ev evs IH]; intros [st h] Ht; [now left|].
    rewrite run_cons in Ht. destruct (IH _ Ht) as [H1|H1].
    - destruct (timedOut_step c st h ev H1) as [H2|H2];
        [now left | right; left; now symmetry].
    - right. now right. }
  intros Ht. destruct (H _ Ht) as [H1|H1]; [discriminate H1 | exact H1].
Qed.

Lemma timed_out_only_by_timer_witness :
  In Timeout [Data Stderr "e"; Timeout; Close None 1 "t"].
Proof.
  apply (timed_out_only_by_timer
           (Closure.mk "c" "c" workspace 10 100 0 10) []).
  reflexivity.
Defined.

(** Once [timedOut] is set, the marker is in the error buffer for good. *)
Lemma marker_step c st hist ev :
  (Exec.timedOut st = true ->
   exists pre post,
     Exec.stderr st = pre ++ timeout_marker (Closure.timeout c) ++ post) ->
  Exec.timedOut (fst (step c (st, hist) ev)) = true ->
  exists pre post,
    Exec.stderr (fst (step c (st, hist) ev))
    = pre ++ timeout_marker (Closure.timeout c) ++ post.
Proof.
  intros Hinv Ht.
  destruct (Exec.timedOut st) eqn:Hto.
  - destruct (Hinv eq_refl) as (pre & post & Hst).
    destruct (step_extends c st hist ev) as (_ & e & _ & He).
    exists pre, (post ++ e). now rewrite He, Hst, !string_app_assoc.
  - destruct (timedOut_step c st hist ev Ht) as [H| ->]; [congruence|].
    simpl in *. unfold fire, doTimeout in *.
    destruct (Exec.timer st); simpl in *; try congruence.
    destruct (negb (Exec.killed st) && negb (Exec.timedOut st));
      simpl in *; [|congruence].
    exists (Exec.stderr st), "". now rewrite string_app_nil_r.
Qed.

Lemma marker_run c evs : forall st hist,
  (Exec.timedOut st = true ->
   exists pre post,
     Exec.stderr st = pre ++ timeout_marker (Closure.timeout c) ++ post) ->
  Exec.timedOut (fst (run c (st, hist) evs)) = true ->
  exists pre post,
    Exec.stderr (fst (run c (st, hist) evs))
    = pre ++ timeout_marker (Closure.timeout c) ++ post.
Proof.
  induction evs as [|ev evs IH]; intros st hist Hinv; [exact Hinv|].
  rewrite run_cons.
  pose proof (marker_step c st hist ev Hinv) as H1.
  destruct (step c (st, hist) ev) as [st1 hist1]. now apply IH.
Qed.

(** X3: when the subprocess streams and then exits and the result is
    marked timed out, the result's [stderr] contains the timeout marker,
    whatever the output cap and however much was written to the error
    stream before and after the timer fired. *)
Theorem timed_out_result_has_marker c hist evs code now isoNow r :
  forallb streaming evs = true ->
  Exec.settled (fst (run c (Exec.init, hist) (evs ++ [Close code now isoNow])))
    = Some (Completed r) ->
  ExecutionResult.timedOut r = true ->
  exists pre post,
    ExecutionResult.stderr r
    = pre ++ timeout_marker (Closure.timeout c) ++ post.
Proof.
  intros Hs Hr Ht.
  destruct (run_to_close c hist evs code now isoNow Hs) as [Hp _].
  rewrite Hp in Hr. injection Hr as <-. simpl in *.
  rewrite Ht. apply marker_run; [discriminate | exact Ht].
Qed.

Lemma timed_out_result_has_marker_witness :
  exists pre post,
    "early" ++ timeout_marker 100 ++ "late"
    = pre ++ timeout_marker 100 ++ post.
Proof.
  apply (timed_out_result_has_marker
           (Closure.mk "sleep 5" "sleep 5" workspace 100 1000 0 100) []
           [Data Stderr "early"; Timeout; Data Stdout "x"; Data Stderr "late"]
           None 130 "t"
           (ExecutionResult.mk true None "x"
              ("early" ++ timeout_marker 100 ++ "late") 130 workspace true
              "sleep 5" "sleep 5"));
    reflexivity.
Defined.

(** X4: a promise is settled once.  After it has been resolved with [r],
    no later event (a second ['close'], an ['error'] after ['close'], more
    output, the timer) changes the value it holds. *)
Theorem first_settlement_stands c s evs r :
  Exec.settled (fst s) = Some r ->
  Exec.settled (fst (run c s evs)) = Some r.
Proof.
  revert s; induction evs as [|ev evs IH]; intros [st hist] Hr; [exact Hr|].
  rewrite run_cons. apply IH.
  destruct ev as [str chunk| |code now isoNow|message].
  - now rewrite (proj2 (streaming_step c st hist (Data str chunk) eq_refl)).
  - now rewrite (proj2 (streaming_step c st hist Timeout eq_refl)).
  - simpl in *. unfold resolve. rewrite settled_clearTimeout, Hr. simpl.
    now rewrite Hr.
  - simpl in *. unfold on_error, resolve. rewrite settled_clearTimeout, Hr.
    simpl. now rewrite Hr.
Qed.

Lemma first_settlement_stands_witness :
  let c := Closure.mk "ls" "ls" workspace 100 100 0 100 in
  exists r,
    Exec.settled (fst (run c (Exec.init, []) [Error "ENOENT"])) = Some r
    /\ Exec.settled
         (fst (run c (run c (Exec.init, []) [Error "ENOENT"])
                 [Close (Some (-2)) 3 "t"; Timeout]))
       = Some r.
Proof.
  intros c. eexists. split; [reflexivity|].
  apply (first_settlement_stands c). reflexivity.
Defined.

(** Neither handler arms the timer again. *)
Lemma timer_not_rearmed c st hist ev :
  Exec.timer st <> Armed -> Exec.timer (fst (step c (st, hist) ev)) <> Armed.
Proof.
  destruct st as [out err k t tm n p]. simpl. intros Htm.
  destruct ev as [s chunk| |code now isoNow|message]; simpl.
  - unfold outputHandler. simpl. destruct (_ <? _);
      [destruct (_ && _)|destruct s]; simpl; exact Htm.
  - unfold fire. simpl. destruct tm; simpl; congruence.
  - unfold resolve. simpl. destruct p; simpl; destruct tm; simpl; congruence.
  - unfold on_error, resolve. simpl.
    destruct p; simpl; destruct tm; simpl; congruence.
Qed.

Lemma timer_not_rearmed_run c evs : forall s,
  Exec.timer (fst s) <> Armed -> Exec.timer (fst (run c s evs)) <> Armed.
Proof.
  induction evs as [|ev evs IH]; intros [st hist] H; [exact H|].
  rewrite run_cons. apply IH. now apply timer_not_rearmed.
Qed.

Lemma timer_after_end c st hist ev :
  streaming ev = false -> Exec.timer (fst (step c (st, hist) ev)) <> Armed.
Proof.
  destruct st as [out err k t tm n p].
  destruct ev as [s chunk| |code now isoNow|message]; try discriminate;
    intros _; simpl.
  - unfold resolve. simpl. destruct p; simpl; destruct tm; simpl; congruence.
  - unfold on_error, resolve. simpl.
    destruct p; simpl; destruct tm; simpl; congruence.
Qed.

(** X5: the timer is cancelled by the end of the process.  Once a
    ['close'] or an ['error'] event has been handled, a timer event at any
    later point changes nothing: no kill is sent, nothing is appended to
    the buffers and [timedOut] keeps its value. *)
Theorem no_timeout_after_end c s evs ev evs' :
  streaming ev = false ->
  step c (run c s (evs ++ ev :: evs')) Timeout = run c s (evs ++ ev :: evs').
Proof.
  intros Hev. rewrite run_app, run_cons.
  destruct (run c s evs) as [st hist].
  pose proof (timer_after_end c st hist ev Hev) as H0.
  pose proof (timer_not_rearmed_run c evs' (step c (st, hist) ev) H0) as H1.
  destruct (run c (step c (st, hist) ev) evs') as [st1 hist1]. simpl in *.
  unfold fire. destruct (Exec.timer st1); [congruence | reflexivity | reflexivity].
Qed.

Lemma no_timeout_after_end_witness :
  let c := Closure.mk "ls" "ls" workspace 100 100 0 100 in
  step c (run c (Exec.init, []) ([Data Stdout "a"] ++ [Close (Some 0) 3 "t"]))
    Timeout
  = run c (Exec.init, []) ([Data Stdout "a"] ++ [Close (Some 0) 3 "t"]).
Proof.
  intros c.
  apply (no_timeout_after_end c (Exec.init, []) [Data Stdout "a"]
           (Close (Some 0) 3 "t") []).
  reflexivity.
Defined.

(** X6: the timer is armed for the requested timeout clamped to two
    minutes (30 s when none is requested), but the marker reports the
    requested timeout: when the timer is the first event, the error buffer
    is the marker computed from the unclamped value. *)
Theorem timer_clamped_marker_not path_resolve process_env spawn_throws
    aliases args startTime child c st hist :
  executeCommand path_resolve process_env spawn_throws aliases args startTime
    = Running child c st ->
  let timeout := default config.defaultTimeout (Args.timeout args) in
  Closure.delay c = Z.min timeout 120000
  /\ Closure.delay c <= 120000
  /\ (Args.timeout args = None -> Closure.delay c = 30000)
  /\ Exec.stderr (fst (run c (st, hist) [Timeout])) = timeout_marker timeout
  /\ Exec.timedOut (fst (run c (st, hist) [Timeout])) = true.
Proof.
  unfold executeCommand.
  destruct (resolveCommand aliases (Args.command args)) as [cmd|e];
    [|discriminate].
  destruct (validateCwd path_resolve _) as [dir|e]; [|discriminate].
  destruct (spawn_throws _); [discriminate|].
  intros H. injection H as <- <- <-. simpl.
  unfold config.maxTimeout.
  repeat split; try reflexivity; try lia.
  intros ->. reflexivity.
Qed.

Lemma timer_clamped_marker_not_witness :
  exists child c st,
    executeCommand Returns ∅ (fun _ => None) ∅
      (Args.mk "sleep 900" None None (Some 600000) None) 0
    = Running child c st
    /\ Closure.delay c = 120000
    /\ Exec.stderr (fst (run c (st, []) [Timeout])) = timeout_marker 600000.
Proof.
  eexists _, _, _. split; [reflexivity|].
  assert (Hrun : executeCommand Returns ∅ (fun _ => None) ∅
                   (Args.mk "sleep 900" None None (Some 600000) None) 0
                 = Running
                     (Spawn.mk "sleep 900" "/bin/bash" workspace (∅ ∪ ∅))
                     (Closure.mk "sleep 900" "sleep 900" workspace 600000
                        (1024 * 1024) 0 (Z.min 600000 config.maxTimeout))
                     Exec.init) by reflexivity.
  destruct (timer_clamped_marker_not _ _ _ _ _ _ _ _ _ [] Hrun)
    as (Hd & _ & _ & Hm & _).
  split; [exact Hd | exact Hm].
Defined.

(** X7: in the environment of the subprocess a variable supplied by the
    caller overrides the inherited one, and every variable the caller
    does not supply is inherited unchanged. *)
Theorem caller_env_overrides path_resolve process_env spawn_throws aliases
    args startTime child c st k :
  executeCommand path_resolve process_env spawn_throws aliases args startTime
    = Running child c st ->
  Spawn.env child !! k
  = match default ∅ (Args.env args) !! k with
    | Some v => Some v
    | None => process_env !! k
    end.
Proof.
  unfold executeCommand.
  destruct (resolveCommand aliases (Args.command args)) as [cmd|e];
    [|discriminate].
  destruct (validateCwd path_resolve _) as [dir|e]; [|discriminate].
  destruct (spawn_throws _); [discriminate|].
  intros H. injection H as <- <- <-. simpl.
  rewrite lookup_union.
  destruct (default ∅ (Args.env args) !! k), (process_env !! k); reflexivity.
Qed.

Lemma caller_env_overrides_witness :
  (({["PATH" := "/opt/bin"]} : gmap string string)
     ∪ {["PATH" := "/usr/bin"; "HOME" := "/root"]}) !! "PATH"
  = Some "/opt/bin".
Proof.
  assert (Hrun : executeCommand Returns
                   {["PATH" := "/usr/bin"; "HOME" := "/root"]} (fun _ => None) ∅
                   (Args.mk "env" None (Some {["PATH" := "/opt/bin"]}) None None) 0
                 = Running
                     (Spawn.mk "env" "/bin/bash" workspace
                        ({["PATH" := "/opt/bin"]}
                           ∪ {["PATH" := "/usr/bin"; "HOME" := "/root"]}))
                     (Closure.mk "env" "env" workspace 30000 (1024 * 1024) 0
                        (Z.min 30000 config.maxTimeout))
                     Exec.init) by reflexivity.
  refine (eq_trans (caller_env_overrides _ _ _ _ _ _ _ _ _ "PATH" Hrun) _).
  reflexivity.
Defined.

(** X8: the allow-list is a test on strings, not on paths.  Any resolved
    directory that starts with the text of the workspace root is used as
    it is, also one that is not inside the workspace (a sibling whose name
    extends the root's). *)
Theorem prefix_of_root_is_allowed path_resolve process_env spawn_throws
    aliases args startTime child c st suffix :
  executeCommand path_resolve process_env spawn_throws aliases args startTime
    = Running child c st ->
  path_resolve (default workspace (Args.cwd args))
    = Returns (workspace ++ suffix) ->
  Spawn.cwd child = workspace ++ suffix
  /\ Closure.resolvedCwd c = workspace ++ suffix.
Proof.
  intros Hrun Hres.
  apply executeCommand_running in Hrun as (_ & _ & Hcwd & _ & Hc & _).
  rewrite Hc. unfold validateCwd in Hcwd. rewrite Hres in Hcwd.
  assert (Hok : isAllowed (workspace ++ suffix) = true).
  { unfold isAllowed. apply existsb_exists. exists workspace.
    split; [now left|]. apply startsWith_spec. now exists suffix. }
  unfold mbind, outcome_bind in Hcwd. cbv beta iota in Hcwd.
  rewrite Hok in Hcwd. injection Hcwd as <-. now split.
Qed.

Lemma prefix_of_root_is_allowed_witness :
  exists child c st,
    executeCommand Returns ∅ (fun _ => None) ∅
      (Args.mk "ls" (Some "/root/.openclaw/workspace-other/x") None None None) 0
    = Running child c st
    /\ Spawn.cwd child = "/root/.openclaw/workspace-other/x".
Proof.
  eexists _, _, _. split; [reflexivity|].
  assert (Hrun : executeCommand Returns ∅ (fun _ => None) ∅
                   (Args.mk "ls" (Some "/root/.openclaw/workspace-other/x")
                      None None None) 0
                 = Running
                     (Spawn.mk "ls" "/bin/bash"
                        "/root/.openclaw/workspace-other/x" (∅ ∪ ∅))
                     (Closure.mk "ls" "ls" "/root/.openclaw/workspace-other/x"
                        30000 (1024 * 1024) 0 (Z.min 30000 config.maxTimeout))
                     Exec.init) by reflexivity.
  apply (prefix_of_root_is_allowed _ _ _ _ _ _ _ _ _ "-other/x" Hrun).
  reflexivity.
Defined.

(** X30: the directory fallback.  When the executor spawns and the
    requested directory, made absolute, has no entry of the allow-list as
    a prefix, the subprocess gets the workspace root as its directory, and
    every value the promise is resolved with has the workspace root as
    [cwd], which differs from the requested path. *)
Theorem outside_cwd_runs_in_workspace path_resolve process_env spawn_throws
    aliases args startTime requested child c st :
  path_resolve (default workspace (Args.cwd args)) = Returns requested ->
  (forall dir, In dir config.allowedDirectories ->
               JsString.startsWith requested dir = false) ->
  executeCommand path_resolve process_env spawn_throws aliases args startTime
    = Running child c st ->
  Spawn.cwd child = workspace
  /\ workspace <> requested
  /\ forall hist evs r,
       Exec.settled (fst (run c (st, hist) evs)) = Some r ->
       result_cwd r = workspace.
Proof.
  intros Hres Hout Hrun.
  assert (Hno : isAllowed requested = false).
  { unfold isAllowed. apply not_true_is_false. intros H.
    apply existsb_exists in H as (dir & Hin & Hd).
    rewrite (Hout dir Hin) in Hd. discriminate Hd. }
  apply executeCommand_running in Hrun as (-> & _ & Hcwd & _ & Hc & _).
  unfold validateCwd in Hcwd. rewrite Hres in Hcwd.
  unfold mbind, outcome_bind in Hcwd. cbv beta iota in Hcwd.
  rewrite Hno in Hcwd. injection Hcwd as Hcwd.
  split; [now symmetry|]. split.
  - intros Heq. rewrite <- Heq in Hno. discriminate Hno.
  - intros hist evs r Hr. rewrite Hcwd, <- Hc.
    apply (settled_cwd_run c evs Exec.init hist); [discriminate | exact Hr].
Qed.

Lemma outside_cwd_runs_in_workspace_witness :
  exists child c st,
    executeCommand Returns ∅ (fun _ => None) ∅
      (Args.mk "ls" (Some "/etc") None None None) 0
    = Running child c st
    /\ Spawn.cwd child = workspace
    /\ forall hist evs r,
         Exec.settled (fst (run c (st, hist) evs)) = Some r ->
         result_cwd r = workspace.
Proof.
  eexists _, _, _. split; [reflexivity|].
  assert (Hrun : executeCommand Returns ∅ (fun _ => None) ∅
                   (Args.mk "ls" (Some "/etc") None None None) 0
                 = Running
                     (Spawn.mk "ls" "/bin/bash" workspace (∅ ∪ ∅))
                     (Closure.mk "ls" "ls" workspace 30000 (1024 * 1024) 0
                        (Z.min 30000 config.maxTimeout))
                     Exec.init) by reflexivity.
  assert (Hout : forall dir, In dir config.allowedDirectories ->
                             JsString.startsWith "/etc" dir = false).
  { intros dir [<-|[]]. reflexivity. }
  destruct (outside_cwd_runs_in_workspace Returns ∅ (fun _ => None) ∅
              (Args.mk "ls" (Some "/etc") None None None) 0 "/etc" _ _ _
              eq_refl Hout Hrun) as (Hc & _ & Hr).
  split; [exact Hc | exact Hr].
Defined.

(** The bound on the buffered size that the overflow check maintains. *)
Lemma size_bound_step c st hist ev L :
  chunk_within L ev ->
  totalLen st
    <= Z.max 0 (Closure.maxOutput c) + Z.of_nat L
       + (if Exec.timedOut st
          then Z.of_nat (String.length (timeout_marker (Closure.timeout c)))
          else 0) ->
  let st' := fst (step c (st, hist) ev) in
  totalLen st'
    <= Z.max 0 (Closure.maxOutput c) + Z.of_nat L
       + (if Exec.timedOut st'
          then Z.of_nat (String.length (timeout_marker (Closure.timeout c)))
          else 0).
Proof.
  unfold step, fire, doTimeout, totalLen.
  generalize (timeout_marker (Closure.timeout c)). intros marker.
  destruct st as [out err k t tm n p]. simpl. intros Hchunk Hb.
  destruct ev as [s chunk| |code now isoNow|message]; simpl in *.
  - unfold outputHandler. simpl.
    destruct (Z.ltb_spec (Closure.maxOutput c)
                (Z.of_nat (String.length out + String.length err))).
    + destruct (negb k && negb t); simpl; exact Hb.
    + destruct s; simpl; rewrite string_length_app; destruct t; lia.
  - destruct tm; simpl; try exact Hb.
    destruct k, t; simpl in *; try exact Hb.
    rewrite string_length_app. lia.
  - unfold resolve. simpl. destruct p; simpl; exact Hb.
  - unfold on_error, resolve. simpl. destruct p; simpl; exact Hb.
Qed.

(** X9: the buffers hold at most the cap, one chunk and the marker.  If
    every chunk has at most [L] code units, then after any events the
    combined size of the two buffers is at most [max 0 maxOutput + L], plus
    the length of the timeout marker once the execution has timed out. *)
Theorem buffered_size_bounded c hist evs L :
  Forall (chunk_within L) evs ->
  let st := fst (run c (Exec.init, hist) evs) in
  totalLen st
    <= Z.max 0 (Closure.maxOutput c) + Z.of_nat L
       + (if Exec.timedOut st
          then Z.of_nat (String.length (timeout_marker (Closure.timeout c)))
          else 0).
Proof.
  intros Hevs.
  assert (H : forall s,
             totalLen (fst s)
               <= Z.max 0 (Closure.maxOutput c) + Z.of_nat L
                  + (if Exec.timedOut (fst s)
                     then Z.of_nat (String.length
                                      (timeout_marker (Closure.timeout c)))
                     else 0) ->
             totalLen (fst (run c s evs))
               <= Z.max 0 (Closure.maxOutput c) + Z.of_nat L
                  + (if Exec.timedOut (fst (run c s evs))
                     then Z.of_nat (String.length
                                      (timeout_marker (Closure.timeout c)))
                     else 0)).
  { induction Hevs as [|ev evs Hev _ IH]; intros [st h] Hb; [exact Hb|].
    rewrite run_cons. apply IH.
    exact (size_bound_step c st h ev L Hev Hb). }
  apply H. unfold totalLen. simpl. lia.
Qed.

Lemma buffered_size_bounded_witness :
  let c := Closure.mk "yes" "yes" workspace 1000 4 0 1000 in
  totalLen
    (fst (run c (Exec.init, [])
            [Data Stdout "abc"; Data Stdout "def"; Data Stdout "ghi"]))
  <= 4 + 3.
Proof.
  intros c.
  refine (buffered_size_bounded c []
            [Data Stdout "abc"; Data Stdout "def"; Data Stdout "ghi"] 3 _).
  repeat constructor.
Defined.

(** X10: with a positive cap, the result of a process that streams and
    exits has as [stdout] the last [maxOutput] code units of what was
    captured, at most [maxOutput] of them; so has [stderr], unless the
    result is timed out, and then [stderr] is everything captured. *)
Theorem positive_cap_keeps_tail c hist evs code now isoNow r :
  0 < Closure.maxOutput c ->
  forallb streaming evs = true ->
  Exec.settled (fst (run c (Exec.init, hist) (evs ++ [Close code now isoNow])))
    = Some (Completed r) ->
  let st := fst (run c (Exec.init, hist) evs) in
  let m := Z.to_nat (Closure.maxOutput c) in
  ExecutionResult.stdout r
    = JsString.drop (String.length (Exec.stdout st) - m) (Exec.stdout st)
  /\ Z.of_nat (String.length (ExecutionResult.stdout r)) <= Closure.maxOutput c
  /\ ExecutionResult.stderr r
     = (if ExecutionResult.timedOut r then Exec.stderr st
        else JsString.drop (String.length (Exec.stderr st) - m) (Exec.stderr st))
  /\ (ExecutionResult.timedOut r = false ->
      Z.of_nat (String.length (ExecutionResult.stderr r)) <= Closure.maxOutput c).
Proof.
  intros Hm Hs Hr st m.
  destruct (run_to_close c hist evs code now isoNow Hs) as [Hp _].
  rewrite Hp in Hr. injection Hr as <-.
  exact (truncation_with_positive_cap c (clearTimeout st) code now Hm).
Qed.

Lemma positive_cap_keeps_tail_witness :
  let c := Closure.mk "ls" "ls" workspace 1000 4 0 1000 in
  exists r,
    Exec.settled
      (fst (run c (Exec.init, [])
              ([Data Stdout "abcdef"] ++ [Close (Some 0) 3 "t"])))
    = Some (Completed r)
    /\ ExecutionResult.stdout r = "cdef".
Proof.
  intros c. eexists. split; [reflexivity|].
  refine (eq_trans
            (proj1 (positive_cap_keeps_tail c [] [Data Stdout "abcdef"]
                      (Some 0) 3 "t" _ _ eq_refl eq_refl)) _);
    reflexivity.
Defined.

(** ** The history log *)

Lemma array_slice_suffix {A} (l : list A) (start : Z) :
  exists older, l = (older ++ array_slice l start)%list.
Proof.
  unfold array_slice. exists (take (slice_from start (length l)) l).
  symmetry. apply take_drop.
Qed.

(** X11: whatever the limit (absent, positive, zero or negative), the
    query returns a most-recent-first copy of a final segment of the log:
    it never invents, repeats or reorders entries, and it never skips a
    recent entry in favour of an older one. *)
Theorem getHistory_is_recent_suffix (commandHistory : list HistoryEntry.t)
    (limit : option Z) :
  exists older,
    commandHistory = (older ++ rev (getHistory commandHistory limit))%list.
Proof.
  unfold getHistory. rewrite rev_involutive. apply array_slice_suffix.
Qed.

(** X12: for a limit [k >= 1] the query returns the last [min k N] of the
    [N] entries, most recent first; without a limit it answers as for
    [k = 50]. *)
Theorem getHistory_last_k (commandHistory : list HistoryEntry.t) (k : Z) :
  0 < k ->
  let N := length commandHistory in
  let n := Nat.min (Z.to_nat k) N in
  getHistory commandHistory (Some k) = rev (drop (N - n) commandHistory)
  /\ length (getHistory commandHistory (Some k)) = n
  /\ getHistory commandHistory None = getHistory commandHistory (Some 50).
Proof.
  intros Hk N n.
  destruct (getHistory_positive_limit commandHistory k Hk) as [H1 H2].
  repeat split; assumption.
Qed.

Lemma getHistory_last_k_witness :
  let e n := HistoryEntry.mk "ls" workspace true (Some 0) n "t" in
  getHistory [e 1; e 2; e 3] (Some 2) = [e 3; e 2].
Proof.
  intros e.
  refine (eq_trans (proj1 (getHistory_last_k [e 1; e 2; e 3] 2 _)) _);
    [lia | reflexivity].
Defined.

(** X13: a negative limit [-k] does not fail: the query then leaves out
    the [k] oldest entries and returns all the others, most recent first
    (nothing once [k] reaches the size of the log). *)
Theorem getHistory_negative_limit (commandHistory : list HistoryEntry.t)
    (k : Z) :
  0 < k ->
  getHistory commandHistory (Some (- k))
  = rev (drop (Z.to_nat k) commandHistory).
Proof.
  intros Hk. unfold getHistory, array_slice, slice_from. simpl default.
  rewrite Z.opp_involutive.
  destruct (Z.ltb_spec k 0) as [H|_]; [lia|].
  destruct (Z.le_gt_cases k (Z.of_nat (length commandHistory))) as [Hle|Hgt].
  - now rewrite Z.min_l by exact Hle.
  - rewrite Z.min_r by lia. rewrite Nat2Z.id.
    rewrite !drop_ge by lia. reflexivity.
Qed.

Lemma getHistory_negative_limit_witness :
  let e n := HistoryEntry.mk "ls" workspace true (Some 0) n "t" in
  getHistory [e 1; e 2; e 3] (Some (- 1)) = [e 3; e 2].
Proof.
  intros e.
  refine (eq_trans (getHistory_negative_limit [e 1; e 2; e 3] 1 _) _);
    [lia | reflexivity].
Defined.

(** X14: what [saveHistory] writes is the whole log while it has at most
    1000 entries, and otherwise its last 1000 entries in their order. *)
Theorem saveHistory_keeps_last_1000 (commandHistory : list HistoryEntry.t) :
  let N := length commandHistory in
  saveHistory commandHistory = drop (N - 1000) commandHistory
  /\ length (saveHistory commandHistory) = Nat.min 1000 N
  /\ ((N <= 1000)%nat -> saveHistory commandHistory = commandHistory).
Proof.
  intros N.
  destruct (array_slice_tail commandHistory 1000 ltac:(lia)) as [Hs Hl].
  change (array_slice commandHistory (- (1000)))
    with (saveHistory commandHistory) in Hs, Hl.
  replace (Z.to_nat 1000) with 1000%nat in Hs, Hl by lia.
  repeat split; [exact Hs | exact Hl |].
  intros HN. rewrite Hs.
  assert (E : (length commandHistory - 1000 = 0)%nat) by (subst N; lia).
  now rewrite E.
Qed.

(** ** The dispatcher, beyond the claims *)

Lemma to_string_primitive (v : jsval) :
  primitive v = true -> exists s, to_string v = Returns s.
Proof.
  destruct v as [|[| [|] | n | s | items | fields]]; simpl;
    try discriminate; intros _; eauto.
Qed.

Section DispatcherMore.

Variable string_to_integer : string -> Z.

Lemma limit_of_primitive (v : jsval) :
  primitive v = true ->
  exists limit, limit_of string_to_integer v = Returns limit.
Proof.
  destruct v as [|[| b | n | s | items | fields]]; simpl;
    try discriminate; intros _; eauto.
Qed.

Lemma callTool_returns srv id params :
  let toolArgs := js_or (get_prop params "arguments") (VJson (JObj [])) in
  primitive (get_prop params "name") = true ->
  primitive (get_prop toolArgs "name") = true ->
  primitive (get_prop toolArgs "limit") = true ->
  exists out, callTool string_to_integer srv id params = Returns out.
Proof.
  intros toolArgs Htool Hname Hlimit. unfold callTool. fold toolArgs.
  destruct (to_string_primitive _ Htool) as [tn Htn].
  destruct (to_string_primitive _ Hname) as [an Han].
  destruct (limit_of_primitive _ Hlimit) as [l Hl].
  rewrite Htn, Han, Hl. simpl.
  repeat match goal with
         | |- context [if ?b then _ else _] => destruct b; simpl
         end; eauto.
Qed.

(** X15: a request whose tool name, alias name and limit are not arrays
    or objects is never answered as a parse error: the handler returns, and
    every response it emits, at once or when an execution settles, carries
    the [id] member of the request. *)
Theorem typed_request_keeps_its_id JSON_parse srv buffer msg :
  let params := get_prop (VJson msg) "params" in
  let toolArgs := js_or (get_prop params "arguments") (VJson (JObj [])) in
  JSON_parse buffer = Some msg ->
  primitive (get_prop params "name") = true ->
  primitive (get_prop toolArgs "name") = true ->
  primitive (get_prop toolArgs "limit") = true ->
  exists srv' effects,
    handleMessage string_to_integer srv msg = Returns (srv', effects)
    /\ parse_and_handle string_to_integer JSON_parse srv buffer
       = (srv', effects)
    /\ Forall (carries_id (get_prop (VJson msg) "id")) effects.
Proof.
  intros params toolArgs Hparse Htool Hname Hlimit.
  assert (H : exists out, handleMessage string_to_integer srv msg = Returns out).
  { unfold handleMessage. rewrite !get_prop_or_empty.
    destruct (is_str _ "initialize"); [eauto|].
    destruct (is_str _ "notifications/initialized"); [eauto|].
    destruct (is_str _ "tools/call"); [|eauto].
    now apply callTool_returns. }
  destruct H as [[srv' effects] H]. exists srv', effects.
  split; [exact H|].
  unfold parse_and_handle. rewrite Hparse, H. split; [reflexivity|].
  eapply handleMessage_carries_id. exact H.
Qed.

(** X16: an error response goes with no change of state.  When the
    handler returns and one of its effects is an error response, that
    response is its only effect and the alias table and the history are
    as before. *)
Theorem error_reply_changes_nothing srv msg srv' effects :
  handleMessage string_to_integer srv msg = Returns (srv', effects) ->
  existsb is_error_reply effects = true ->
  srv' = srv /\ exists r, effects = [Send r].
Proof.
  unfold handleMessage, callTool.
  repeat match goal with
         | |- context [if ?b then _ else _] => destruct b
         | |- context [mbind _ ?m] => destruct m; simpl
         end;
    intros H; try discriminate H; injection H as <- <-; simpl;
    intros He; try discriminate He; split; eauto.
Qed.

(** X17: only [addAlias], [removeAlias] and [clearHistory] change the
    tables.  Every other request (also [execute], whose history entry is
    pushed later by the ['close'] handler) returns them as they were. *)
Theorem only_three_tools_change_state srv msg srv' effects :
  handleMessage string_to_integer srv msg = Returns (srv', effects) ->
  srv' <> srv ->
  let m := VJson msg in
  is_str (get_prop m "method") "tools/call" = true
  /\ (is_str (get_prop (get_prop m "params") "name") "addAlias" = true
      \/ is_str (get_prop (get_prop m "params") "name") "removeAlias" = true
      \/ is_str (get_prop (get_prop m "params") "name") "clearHistory" = true).
Proof.
  unfold handleMessage, callTool. rewrite !get_prop_or_empty.
  destruct (is_str _ "initialize");
    [intros H; injection H as <- <-; congruence|].
  destruct (is_str _ "notifications/initialized");
    [intros H; injection H as <- <-; congruence|].
  destruct (is_str _ "tools/call");
    [|intros H; injection H as <- <-; congruence].
  destruct (is_str _ "execute");
    [intros H; injection H as <- <-; congruence|].
  destruct (is_str _ "history").
  { destruct (limit_of _ _); simpl; intros H; try discriminate H.
    injection H as <- <-. congruence. }
  destruct (is_str _ "clearHistory"); [now auto|].
  destruct (is_str _ "aliases");
    [intros H; injection H as <- <-; congruence|].
  destruct (is_str _ "addAlias"); [now auto|].
  destruct (is_str _ "removeAlias"); [now auto|].
  destruct (to_string _); simpl; intros H; try discriminate H.
  injection H as <- <-. congruence.
Qed.

(** X18: a message that is not an object (a number, a string, an array,
    [true], [false] or [null]) does not stop the handler: it is answered
    with error -32600 "Unknown method", in a response without [id]. *)
Theorem non_object_message_is_unknown_method srv msg :
  (forall fields, msg <> JObj fields) ->
  handleMessage string_to_integer srv msg
  = Returns
      (srv, [Send (Response.mk VUndefined (ErrorReply (-32600) "Unknown method"))]).
Proof.
  intros Hmsg. unfold handleMessage. rewrite !get_prop_or_empty.
  destruct msg; try reflexivity. now specialize (Hmsg fields).
Qed.

End DispatcherMore.

Lemma error_reply_changes_nothing_witness :
  let srv := Server.mk {["gp" := JStr "git pull"]} [] in
  let msg := JObj [("id", JNum 1); ("method", JStr "shutdown")] in
  exists effects,
    handleMessage (fun _ => 0) srv msg = Returns (srv, effects)
    /\ exists r, effects = [Send r].
Proof.
  intros srv msg. eexists. split; [reflexivity|].
  apply (error_reply_changes_nothing (fun _ => 0) srv msg srv _ eq_refl).
  reflexivity.
Defined.

Lemma typed_request_keeps_its_id_witness :
  let msg :=
    JObj [("id", JStr "a"); ("method", JStr "tools/call");
          ("params", JObj [("name", JStr "history");
                           ("arguments", JObj [("limit", JNum 5)])])] in
  exists srv' effects,
    handleMessage (fun _ => 0) (Server.mk ∅ []) msg = Returns (srv', effects)
    /\ parse_and_handle (fun _ => 0) (fun _ => Some msg) (Server.mk ∅ []) "{}"
       = (srv', effects)
    /\ Forall (carries_id (VJson (JStr "a"))) effects.
Proof.
  intros msg.
  apply (typed_request_keeps_its_id (fun _ => 0) (fun _ => Some msg)
           (Server.mk ∅ []) "{}" msg); reflexivity.
Defined.

Lemma only_three_tools_change_state_witness :
  let srv := Server.mk ∅ [HistoryEntry.mk "ls" workspace true (Some 0) 1 "t"] in
  let msg :=
    JObj [("method", JStr "tools/call");
          ("params", JObj [("name", JStr "clearHistory")])] in
  is_str (get_prop (VJson msg) "method") "tools/call" = true
  /\ (is_str (get_prop (get_prop (VJson msg) "params") "name") "addAlias" = true
      \/ is_str (get_prop (get_prop (VJson msg) "params") "name") "removeAlias"
         = true
      \/ is_str (get_prop (get_prop (VJson msg) "params") "name") "clearHistory"
         = true).
Proof.
  intros srv msg.
  apply (only_three_tools_change_state (fun _ => 0) srv msg
           (Server.mk ∅ []) _ eq_refl).
  discriminate.
Defined.

Lemma non_object_message_is_unknown_method_witness :
  handleMessage (fun _ => 0) (Server.mk ∅ []) JNull
  = Returns
      (Server.mk ∅ [],
       [Send (Response.mk VUndefined (ErrorReply (-32600) "Unknown method"))]).
Proof.
  apply (non_object_message_is_unknown_method (fun _ => 0)).
  discriminate.
Defined.

(** *** Tokens joined by spaces *)

Lemma ends_ws_free p : ws_free p = true -> ends_ws p = false.
Proof.
  induction p as [|c p IH]; [reflexivity|]. simpl.
  intros H. apply andb_prop in H as [Hc Hp]. apply negb_true_iff in Hc.
  destruct p; [exact Hc | now apply IH].
Qed.

Lemma string_app_nonempty s t : t <> EmptyString -> s ++ t <> EmptyString.
Proof.
  destruct s as [|c s]; [intros H; exact H|].
  intros _. rewrite string_app_cons. discriminate.
Qed.

Lemma ends_ws_app s t : t <> EmptyString -> ends_ws (s ++ t) = ends_ws t.
Proof.
  intros Ht. induction s as [|c s IH]; [reflexivity|].
  rewrite string_app_cons. simpl.
  pose proof (string_app_nonempty s t Ht) as Hne.
  destruct (s ++ t); [congruence | exact IH].
Qed.

Lemma trimEnd_id s : ends_ws s = false -> JsString.trimEnd s = s.
Proof.
  induction s as [|c s IH]; [reflexivity|]. simpl.
  destruct s as [|d s].
  - intros ->. reflexivity.
  - intros H. rewrite (IH H). now rewrite andb_false_r.
Qed.

Lemma join_tokens_shape t l :
  Forall token (t :: l) ->
  exists a rest,
    JsString.join_sp (t :: l) = String a rest
    /\ JsString.is_ws a = false
    /\ ends_ws (JsString.join_sp (t :: l)) = false.
Proof.
  revert t; induction l as [|q l IH]; intros t Hl;
    inversion Hl as [|? ? [Hne Hfree] Hrest]; subst.
  - destruct t as [|a t]; [discriminate Hne|].
    exists a, t. split; [reflexivity|]. split.
    + simpl in Hfree. apply andb_prop in Hfree as [Ha _].
      now apply negb_true_iff.
    + now apply ends_ws_free.
  - destruct (IH q Hrest) as (b & rest & Hq & _ & Hend).
    change (JsString.join_sp (t :: q :: l))
      with (t ++ " " ++ JsString.join_sp (q :: l)).
    destruct t as [|a t]; [discriminate Hne|].
    exists a, (t ++ " " ++ JsString.join_sp (q :: l)).
    split; [apply string_app_cons|]. split.
    + simpl in Hfree. apply andb_prop in Hfree as [Ha _].
      now apply negb_true_iff.
    + rewrite ends_ws_app by (rewrite Hq; discriminate).
      rewrite Hq in *. exact Hend.
Qed.

(** Splitting undoes joining, for tokens. *)
Lemma split_join_tokens l :
  l <> [] -> Forall token l -> JsString.split_ws (JsString.join_sp l) = l.
Proof.
  induction l as [|p [|q l] IH]; intros Hne Hl; [congruence| |].
  - inversion Hl as [|? ? [_ Hfree] _]; subst. now apply split_ws_free.
  - inversion Hl as [|? ? [_ Hfree] Hrest]; subst.
    change (JsString.join_sp (p :: q :: l))
      with (p ++ " " ++ JsString.join_sp (q :: l)).
    rewrite (split_ws_free_then_space _ _ Hfree). f_equal.
    destruct (join_tokens_shape q l Hrest) as (a & rest & Hq & Ha & _).
    assert (Hql : q :: l <> []) by discriminate.
    transitivity (JsString.split_ws (JsString.join_sp (q :: l)));
      [|exact (IH Hql Hrest)].
    unfold JsString.split_ws. rewrite Hq. simpl. now rewrite Ha.
Qed.

(** A line of tokens is already trimmed. *)
Lemma trim_join_tokens l :
  Forall token l -> JsString.trim (JsString.join_sp l) = JsString.join_sp l.
Proof.
  destruct l as [|t l]; [reflexivity|]. intros Hl.
  destruct (join_tokens_shape t l Hl) as (a & rest & Hq & Ha & Hend).
  unfold JsString.trim.
  assert (Hs : JsString.trimStart (JsString.join_sp (t :: l))
               = JsString.join_sp (t :: l)).
  { rewrite Hq. simpl. now rewrite Ha. }
  rewrite Hs. now apply trimEnd_id.
Qed.

(** What the server makes of an alias name followed by argument tokens. *)
Lemma resolveCommand_on_tokens (aliases : alias_table) name extraArgs :
  Forall token (name :: extraArgs) ->
  resolveCommand aliases (JsString.join_sp (name :: extraArgs))
  = if truthy_entry (alias_get aliases name) then
      match alias_get aliases name with
      | Value (JStr template) =>
          Returns (JsString.join_sp (JsString.split_ws template ++ extraArgs))
      | _ => Throws not_a_function
      end
    else Returns (JsString.join_sp (name :: extraArgs)).
Proof.
  intros Hl. unfold resolveCommand.
  assert (Hne : name :: extraArgs <> []) by discriminate.
  rewrite (trim_join_tokens _ Hl), (split_join_tokens _ Hne Hl).
  reflexivity.
Qed.

(** *** Adding, removing and using aliases through the dispatcher *)

Section AliasTools.

Variable string_to_integer : string -> Z.

Lemma addAlias_lookup srv id params n c :
  let toolArgs := js_or (get_prop params "arguments") (VJson (JObj [])) in
  get_prop params "name" = VJson (JStr "addAlias") ->
  get_prop toolArgs "name" = VJson (JStr n) ->
  n <> EmptyString ->
  n <> "__proto__" ->
  get_prop toolArgs "command" = VJson c ->
  truthy_json c = true ->
  exists aliases' : alias_table,
    callTool string_to_integer srv id params
    = Returns
        (Server.mk aliases' (Server.commandHistory srv),
         [SaveAliases aliases';
          Send (Response.mk id (Result (AddedText (VJson (JStr n)))))])
    /\ aliases' !! n = Some c.
Proof.
  intros toolArgs Htool Hname Hn Hproto Hcmd Hc.
  exists (<[n := c]> (Server.aliases srv)). split.
  - unfold callTool. fold toolArgs. rewrite Htool, Hname, Hcmd. simpl.
    rewrite Hc. destruct n as [|a n]; [congruence|].
    destruct (String.eqb_spec (String a n) "__proto__"); [congruence|].
    reflexivity.
  - apply table_lookup_insert_eq.
Qed.

(** X19: a successful [addAlias].  With a non-empty string as name, other
    than [__proto__], and a truthy command, the table afterwards maps the
    name to the command and every other name as before; the new table is
    saved, the history is untouched and the response reports the name. *)
Theorem addAlias_stores srv id params n c :
  let toolArgs := js_or (get_prop params "arguments") (VJson (JObj [])) in
  get_prop params "name" = VJson (JStr "addAlias") ->
  get_prop toolArgs "name" = VJson (JStr n) ->
  n <> EmptyString ->
  n <> "__proto__" ->
  get_prop toolArgs "command" = VJson c ->
  truthy_json c = true ->
  exists aliases' : alias_table,
    callTool string_to_integer srv id params
    = Returns
        (Server.mk aliases' (Server.commandHistory srv),
         [SaveAliases aliases';
          Send (Response.mk id (Result (AddedText (VJson (JStr n)))))])
    /\ aliases' !! n = Some c
    /\ forall k, k <> n -> aliases' !! k = Server.aliases srv !! k.
Proof.
  intros toolArgs Htool Hname Hn Hproto Hcmd Hc.
  exists (<[n := c]> (Server.aliases srv)).
  split; [|split].
  - unfold callTool. fold toolArgs. rewrite Htool, Hname, Hcmd. simpl.
    rewrite Hc. destruct n as [|a n]; [congruence|].
    destruct (String.eqb_spec (String a n) "__proto__"); [congruence|].
    reflexivity.
  - apply table_lookup_insert_eq.
  - intros k Hk. apply table_lookup_insert_ne. congruence.
Qed.

(** X20: [removeAlias] with a non-empty string as name.  If
    [aliases[name]] is truthy, the own entry of that name is deleted (none
    is, when the name is only found in the prototype of the table), the other
    entries stay, the table is saved and the response reports the removal.
    Otherwise, also when the name is stored with an empty command, the
    answer is error -32602 "Alias not found" and nothing changes. *)
Theorem removeAlias_by_truthiness srv id params n :
  let toolArgs := js_or (get_prop params "arguments") (VJson (JObj [])) in
  let aliases := Server.aliases srv in
  get_prop params "name" = VJson (JStr "removeAlias") ->
  get_prop toolArgs "name" = VJson (JStr n) ->
  n <> EmptyString ->
  callTool string_to_integer srv id params
  = (if truthy_entry (alias_get aliases n) then
       Returns
         (Server.mk (delete n aliases) (Server.commandHistory srv),
          [SaveAliases (delete n aliases);
           Send (Response.mk id (Result (RemovedText (VJson (JStr n)))))])
     else
       Returns
         (srv,
          [Send (Response.mk id
                   (ErrorReply (-32602) ("Alias not found: " ++ n)))]))
  /\ delete n aliases !! n = None
  /\ (forall k, k <> n -> delete n aliases !! k = aliases !! k)
  /\ (aliases !! n = None -> delete n aliases = aliases).
Proof.
  intros toolArgs aliases Htool Hname Hn. split; [|split; [|split]].
  - unfold callTool. fold toolArgs. rewrite Htool, Hname. simpl.
    destruct n as [|a n]; [congruence|]. simpl. fold aliases.
    destruct (truthy_entry (alias_get aliases (String a n))); reflexivity.
  - apply table_lookup_delete_eq.
  - intros k Hk. apply table_lookup_delete_ne. congruence.
  - apply table_delete_id.
Qed.

(** X21: an alias added through the dispatcher is what the engine then
    resolves.  After [addAlias] with a token other than [__proto__] as
    name and a non-empty string as command, a command line made of that
    name and further tokens resolves to the parts of the command followed
    by those tokens, joined by single spaces. *)
Theorem added_alias_resolves srv id params n template extraArgs :
  let toolArgs := js_or (get_prop params "arguments") (VJson (JObj [])) in
  get_prop params "name" = VJson (JStr "addAlias") ->
  get_prop toolArgs "name" = VJson (JStr n) ->
  get_prop toolArgs "command" = VJson (JStr template) ->
  template <> EmptyString ->
  n <> "__proto__" ->
  Forall token (n :: extraArgs) ->
  exists srv' effects,
    callTool string_to_integer srv id params = Returns (srv', effects)
    /\ resolveCommand (Server.aliases srv')
         (JsString.join_sp (n :: extraArgs))
       = Returns
           (JsString.join_sp (JsString.split_ws template ++ extraArgs)).
Proof.
  intros toolArgs Htool Hname Hcmd Ht Hproto Htokens.
  assert (Hn : n <> EmptyString).
  { inversion Htokens as [|? ? [Hne _] _]; subst. now destruct n. }
  assert (Hc : truthy_json (JStr template) = true) by now destruct template.
  destruct (addAlias_lookup srv id params n (JStr template)
              Htool Hname Hn Hproto Hcmd Hc) as (aliases' & Hrun & Hget).
  eexists _, _. split; [exact Hrun|]. simpl.
  rewrite (resolveCommand_on_tokens _ _ _ Htokens).
  unfold alias_get. rewrite Hget.
  destruct template; [congruence | reflexivity].
Qed.

(** X22: after [clearHistory] the log is empty.  The tool answers
    [cleared] and keeps the aliases, and a [history] query that follows,
    whatever its limit, returns no entry. *)
Theorem cleared_history_is_empty srv id id' params params' :
  let toolArgs' := js_or (get_prop params' "arguments") (VJson (JObj [])) in
  get_prop params "name" = VJson (JStr "clearHistory") ->
  get_prop params' "name" = VJson (JStr "history") ->
  primitive (get_prop toolArgs' "limit") = true ->
  exists srv',
    callTool string_to_integer srv id params
    = Returns (srv', [Send (Response.mk id (Result ClearedText))])
    /\ Server.aliases srv' = Server.aliases srv
    /\ callTool string_to_integer srv' id' params'
       = Returns (srv', [Send (Response.mk id' (Result (HistoryText [])))]).
Proof.
  intros toolArgs' Htool Htool' Hlimit.
  exists (Server.mk (Server.aliases srv) []).
  split; [|split; [reflexivity|]].
  - unfold callTool. rewrite Htool. reflexivity.
  - unfold callTool. fold toolArgs'. rewrite Htool'. simpl.
    destruct (limit_of_primitive string_to_integer _ Hlimit) as [l ->]. simpl.
    unfold getHistory, array_slice. simpl. now rewrite drop_nil.
Qed.

End AliasTools.

Lemma addAlias_stores_witness :
  let params :=
    VJson (JObj [("name", JStr "addAlias");
                 ("arguments",
                  JObj [("name", JStr "gp"); ("command", JStr "git pull")])]) in
  exists aliases' : alias_table,
    callTool (fun _ => 0) (Server.mk ∅ []) (VJson (JNum 1)) params
    = Returns
        (Server.mk aliases' [],
         [SaveAliases aliases';
          Send (Response.mk (VJson (JNum 1))
                  (Result (AddedText (VJson (JStr "gp")))))])
    /\ aliases' !! "gp" = Some (JStr "git pull")
    /\ forall k, k <> "gp" -> aliases' !! k = (∅ : alias_table) !! k.
Proof.
  intros params.
  apply (addAlias_stores (fun _ => 0) (Server.mk ∅ []) (VJson (JNum 1))
           params "gp" (JStr "git pull"));
    try reflexivity; discriminate.
Defined.

Lemma removeAlias_by_truthiness_witness :
  let params :=
    VJson (JObj [("name", JStr "removeAlias");
                 ("arguments", JObj [("name", JStr "e")])]) in
  let srv := Server.mk {["e" := JStr ""]} [] in
  callTool (fun _ => 0) srv VUndefined params
  = Returns
      (srv,
       [Send (Response.mk VUndefined (ErrorReply (-32602) "Alias not found: e"))]).
Proof.
  intros params srv.
  refine (eq_trans
            (proj1 (removeAlias_by_truthiness (fun _ => 0) srv VUndefined
                      params "e" eq_refl eq_refl _)) _);
    [discriminate | reflexivity].
Defined.

Lemma added_alias_resolves_witness :
  let params :=
    VJson (JObj [("name", JStr "addAlias");
                 ("arguments",
                  JObj [("name", JStr "gp");
                        ("command", JStr "git pull origin main")])]) in
  exists srv' effects,
    callTool (fun _ => 0) (Server.mk ∅ []) VUndefined params
    = Returns (srv', effects)
    /\ resolveCommand (Server.aliases srv') "gp --x"
       = Returns "git pull origin main --x".
Proof.
  intros params.
  apply (added_alias_resolves (fun _ => 0) (Server.mk ∅ []) VUndefined params
           "gp" "git pull origin main" ["--x"]);
    try reflexivity; try discriminate.
  repeat constructor.
Defined.

Lemma cleared_history_is_empty_witness :
  let params := VJson (JObj [("name", JStr "clearHistory")]) in
  let params' := VJson (JObj [("name", JStr "history")]) in
  let srv :=
    Server.mk ∅ [HistoryEntry.mk "ls" workspace true (Some 0) 1 "t"] in
  exists srv',
    callTool (fun _ => 0) srv (VJson (JNum 1)) params
    = Returns (srv', [Send (Response.mk (VJson (JNum 1)) (Result ClearedText))])
    /\ Server.aliases srv' = Server.aliases srv
    /\ callTool (fun _ => 0) srv' (VJson (JNum 2)) params'
       = Returns
           (srv', [Send (Response.mk (VJson (JNum 2)) (Result (HistoryText [])))]).
Proof.
  intros params params' srv.
  apply (cleared_history_is_empty (fun _ => 0) srv (VJson (JNum 1))
           (VJson (JNum 2)) params params');
    reflexivity.
Defined.

(** ** Loading the alias file *)

(** The own properties after an assignment, under names other than
    [__proto__]. *)
Lemma alias_set_lookup (aliases : alias_table) k' v k :
  k <> "__proto__" ->
  alias_set aliases k' (VJson v) !! k
  = if String.eqb k k' then Some v else aliases !! k.
Proof.
  intros Hk. unfold alias_set.
  destruct (String.eqb_spec k k') as [<-|Hne].
  - destruct (String.eqb_spec k "__proto__"); [congruence|].
    apply table_lookup_insert_eq.
  - destruct (String.eqb k' "__proto__" && reaches_setter aliases).
    + now destruct v.
    + apply table_lookup_insert_ne. congruence.
Qed.

Lemma assign_fields_lookup fields : forall (aliases : alias_table) k,
  k <> "__proto__" ->
  assign_fields aliases fields !! k
  = match assoc k (rev fields) with
    | Some v => Some v
    | None => aliases !! k
    end.
Proof.
  induction fields as [|[k' v] fields IH]; intros aliases k Hk; [reflexivity|].
  cbn [assign_fields]. rewrite (IH _ k Hk). simpl rev.
  assert (Happ : forall l, assoc k (l ++ [(k', v)])
                           = match assoc k l with
                             | Some x => Some x
                             | None => if String.eqb k k' then Some v else None
                             end).
  { induction l as [|[k2 v2] l IHl]; simpl; [reflexivity|].
    destruct (String.eqb k k2); [reflexivity | exact IHl]. }
  rewrite Happ. destruct (assoc k (rev fields)); [reflexivity|].
  rewrite (alias_set_lookup _ _ _ _ Hk).
  now destruct (String.eqb k k').
Qed.

(** Where the setter is reached, an assignment to [__proto__] creates no
    property; an assignment under another name leaves the setter within
    reach. *)
Lemma alias_set_proto_key (aliases : alias_table) v :
  reaches_setter aliases = true ->
  alias_set aliases "__proto__" (VJson v) !! "__proto__" = None.
Proof.
  intros Hr. unfold alias_set. rewrite Hr. simpl.
  unfold reaches_setter in Hr.
  destruct (aliases !! "__proto__") eqn:Hget; [discriminate|].
  now destruct v.
Qed.

Lemma reaches_setter_insert (aliases : alias_table) k v :
  k <> "__proto__" ->
  reaches_setter (<[k := v]> aliases) = reaches_setter aliases.
Proof.
  intros Hk. unfold reaches_setter.
  now rewrite (table_lookup_insert_ne _ _ _ _ Hk).
Qed.

Lemma assign_fields_proto fields : forall aliases : alias_table,
  aliases !! "__proto__" = None ->
  reaches_setter aliases = true \/ "__proto__" ∉ fields.*1 ->
  NoDup (fields.*1) ->
  assign_fields aliases fields !! "__proto__" = None.
Proof.
  induction fields as [|[k v] fields IH]; intros aliases Hget Hr Hnd;
    [exact Hget|].
  rewrite fmap_cons in Hnd, Hr. simpl in Hnd, Hr.
  apply NoDup_cons in Hnd as [Hk Hnd].
  cbn [assign_fields]. destruct (String.eqb_spec k "__proto__") as [->|Hne].
  - destruct Hr as [Hr|Hr]; [|exfalso; apply Hr; now left].
    apply IH; [now apply alias_set_proto_key | now right | exact Hnd].
  - rewrite (alias_set_ordinary _ _ _ Hne). apply IH.
    + now rewrite (table_lookup_insert_ne _ _ _ _ Hne).
    + destruct Hr as [Hr|Hr].
      * left. now rewrite (reaches_setter_insert _ _ _ Hne).
      * right. intros Hin. apply Hr. now right.
    + exact Hnd.
Qed.


(** X23: loading merges the file over the table.  When the alias file
    holds an object, every member other than [__proto__] is in the table
    afterwards (the last one, if a name occurs twice), and every name the
    file does not mention keeps its entry.  A member [__proto__] creates no
    entry, in a file whose members have distinct names and a table in which
    an assignment to [__proto__] reaches the setter, as in the table the
    server starts with; a missing or unparsable file changes nothing. *)
Theorem loadAliases_merges (aliases : alias_table) fields k :
  k <> "__proto__" ->
  loadAliases aliases (Some (JObj fields)) !! k
  = match assoc k (rev fields) with
    | Some v => Some v
    | None => aliases !! k
    end
  /\ (reaches_setter aliases = true ->
      NoDup (fields.*1) ->
      loadAliases aliases (Some (JObj fields)) !! "__proto__" = None)
  /\ loadAliases aliases None = aliases.
Proof.
  intros Hk. split; [|split].
  - now apply assign_fields_lookup.
  - intros Hr Hnd. apply assign_fields_proto; [|now left|exact Hnd].
    unfold reaches_setter in Hr.
    now destruct (aliases !! "__proto__").
  - reflexivity.
Qed.

Lemma loadAliases_merges_witness :
  loadAliases {["ll" := JStr "ls -l"]}
    (Some (JObj [("gp", JStr "git pull"); ("gp", JStr "git push")])) !! "gp"
  = Some (JStr "git push").
Proof.
  refine (eq_trans
            (proj1 (loadAliases_merges {["ll" := JStr "ls -l"]}
                      [("gp", JStr "git pull"); ("gp", JStr "git push")]
                      "gp" _)) _);
    [discriminate | reflexivity].
Defined.




(** ** The alias manager *)

(** X25: the [test] command of the alias manager predicts the server.
    For a name and extra arguments that are tokens: when the tool prints a
    resolved command, the server resolves the line made of the name and the
    arguments to that very command; when the tool reports the alias as not
    found, the server runs the line as it is; and when the tool fails
    because the entry has no [split], so does the server. *)
Theorem resolveAlias_agrees_with_server (aliases : alias_table) name extraArgs :
  Forall token (name :: extraArgs) ->
  let line := JsString.join_sp (name :: extraArgs) in
  match AliasManager.resolveAlias aliases name extraArgs with
  | Returns (out, true) =>
      exists resolved,
        out = [AliasManager.Resolved name (JsString.join_sp extraArgs);
               AliasManager.Command resolved]
        /\ resolveCommand aliases line = Returns resolved
  | Returns (out, false) =>
      out = [AliasManager.NotFound name]
      /\ resolveCommand aliases line = Returns line
  | Throws _ => resolveCommand aliases line = Throws not_a_function
  end.
Proof.
  intros Htokens line. subst line.
  rewrite (resolveCommand_on_tokens _ _ _ Htokens).
  unfold AliasManager.resolveAlias.
  destruct (truthy_entry (alias_get aliases name)) eqn:Ht; simpl;
    [|now split].
  destruct (alias_get aliases name) as [[| | |template| |]| |];
    try reflexivity; try discriminate Ht.
  eexists. split; reflexivity.
Qed.

Lemma resolveAlias_agrees_with_server_witness :
  match AliasManager.resolveAlias {["gp" := JStr "git pull"]} "gp" ["-v"] with
  | Returns (out, true) =>
      exists resolved,
        out = [AliasManager.Resolved "gp" "-v"; AliasManager.Command resolved]
        /\ resolveCommand {["gp" := JStr "git pull"]} "gp -v" = Returns resolved
  | Returns (out, false) =>
      out = [AliasManager.NotFound "gp"]
      /\ resolveCommand {["gp" := JStr "git pull"]} "gp -v" = Returns "gp -v"
  | Throws _ =>
      resolveCommand {["gp" := JStr "git pull"]} "gp -v" = Throws not_a_function
  end.
Proof.
  apply (resolveAlias_agrees_with_server {["gp" := JStr "git pull"]} "gp" ["-v"]).
  repeat constructor.
Defined.

(** X26: an alias added by the alias manager is stored and written to the
    file whatever its command, but [get] finds it afterwards only if the
    command is not empty: an alias with an empty command is reported as
    not found.  Entries under other names are not touched. *)
Theorem added_alias_found_iff_nonempty (aliases : alias_table) name command :
  name <> "__proto__" ->
  let aliases' := fst (AliasManager.addAlias aliases name command) in
  aliases' !! name = Some (JStr command)
  /\ (forall k, k <> name -> aliases' !! k = aliases !! k)
  /\ In (AliasManager.WriteFile aliases')
        (snd (AliasManager.addAlias aliases name command))
  /\ snd (AliasManager.getAlias aliases' name) = nonempty command.
Proof.
  intros Hname aliases'. subst aliases'.
  unfold AliasManager.addAlias. cbn [fst snd].
  rewrite (alias_set_ordinary _ _ _ Hname).
  split; [apply table_lookup_insert_eq|].
  split; [intros k Hk; apply table_lookup_insert_ne; congruence|].
  split.
  - apply in_or_app. right. now left.
  - unfold AliasManager.getAlias, alias_get.
    rewrite table_lookup_insert_eq. simpl.
    unfold nonempty. now destruct (JsString.is_empty command).
Qed.

Lemma added_alias_found_iff_nonempty_witness :
  snd (AliasManager.getAlias
         (fst (AliasManager.addAlias ∅ "x" "")) "x")
  = false.
Proof.
  refine (eq_trans
            (proj2 (proj2 (proj2
               (added_alias_found_iff_nonempty ∅ "x" "" _)))) _);
    [discriminate | reflexivity].
Defined.

(** ** The framer, beyond the claims *)

Lemma body_of_app ls ls' : body_of (ls ++ ls') = body_of ls ++ body_of ls'.
Proof.
  induction ls as [|l ls IH]; [reflexivity|]. simpl.
  now rewrite IH, !string_app_assoc.
Qed.

Section FramerMore.

Variable string_to_integer : string -> Z.
Variable JSON_parse : string -> option json.

(** Body lines short of the announced length are collected, silently. *)
Lemma body_lines_accumulate srv n lines : forall buffer,
  Z.of_nat (String.length (buffer ++ body_of lines)) < n ->
  read_lines string_to_integer JSON_parse
    (Framer.mk buffer n true, srv) lines
  = (Framer.mk (buffer ++ body_of lines) n true, srv, []).
Proof.
  induction lines as [|line lines IH]; intros buffer Hlen.
  - simpl. now rewrite string_app_nil_r.
  - rewrite read_lines_cons. unfold on_line. simpl negb. cbv iota.
    simpl Framer.buffer. simpl Framer.contentLength.
    simpl body_of in Hlen. rewrite <- !string_app_assoc in Hlen.
    assert (Hshort : Z.of_nat (String.length (buffer ++ line ++ newline)) < n).
    { rewrite <- string_app_assoc.
      rewrite string_length_app in Hlen. lia. }
    destruct (Z.leb_spec n
                (Z.of_nat (String.length (buffer ++ line ++ newline))));
      [lia|].
    rewrite IH.
    + simpl body_of. now rewrite <- !string_app_assoc.
    + now rewrite <- !string_app_assoc.
Qed.

Lemma read_lines_app s0 ls ls' :
  read_lines string_to_integer JSON_parse s0 (ls ++ ls')
  = let '(f, srv1, e1) := read_lines string_to_integer JSON_parse s0 ls in
    let '(f', srv2, e2) :=
      read_lines string_to_integer JSON_parse (f, srv1) ls' in
    (f', srv2, (e1 ++ e2)%list).
Proof.
  revert s0; induction ls as [|l ls IH]; intros [f0 srv0].
  - simpl. now destruct (read_lines _ _ (f0, srv0) ls') as [[? ?] ?].
  - rewrite <- app_comm_cons, !read_lines_cons.
    destruct (on_line _ _ (f0, srv0) l) as [[f1 s1] e1]. rewrite IH.
    destruct (read_lines _ _ (f1, s1) ls) as [[f2 s2] e2].
    destruct (read_lines _ _ (f2, s2) ls') as [[f3 s3] e3].
    now rewrite app_assoc.
Qed.

(** X27: a complete frame is dispatched once.  From the initial state, a
    line that matches the [Content-Length] pattern with a positive length
    [n], an empty line, and body lines of which all but the last stay short
    of [n] while all together reach it: what is parsed and handled is the
    text of all body lines, each followed by a line feed, nothing is emitted
    before, and the framer ends in its initial state. *)
Theorem frame_is_dispatched srv header n lines last :
  Header.content_length header = Some n ->
  0 < n ->
  Z.of_nat (String.length (body_of lines)) < n ->
  n <= Z.of_nat (String.length (body_of (lines ++ [last]))) ->
  let done :=
    parse_and_handle string_to_integer JSON_parse srv
      (body_of (lines ++ [last])) in
  read_lines string_to_integer JSON_parse (Framer.init, srv)
    (header :: EmptyString :: lines ++ [last])
  = (Framer.init, fst done, snd done).
Proof.
  intros Hheader Hn Hshort Hfull done.
  rewrite read_lines_cons. unfold on_line at 1. simpl negb. cbv iota.
  rewrite Hheader.
  rewrite read_lines_cons. unfold on_line at 1. simpl negb. cbv iota.
  change (Header.content_length "") with (@None Z).
  change (JsString.is_empty (JsString.trim "")) with true. cbv iota.
  simpl Framer.contentLength. apply Z.ltb_lt in Hn. rewrite Hn.
  rewrite read_lines_app, (body_lines_accumulate srv n lines "")
    by exact Hshort.
  change ("" ++ body_of lines) with (body_of lines).
  rewrite read_lines_cons.
  rewrite (on_line_completes string_to_integer JSON_parse
             (Framer.mk (body_of lines) n true) srv last eq_refl).
  - simpl Framer.buffer.
    replace (body_of lines ++ last ++ newline)
      with (body_of (lines ++ [last]))
      by (rewrite body_of_app; simpl; now rewrite string_app_nil_r).
    fold done. cbn [read_lines app]. now rewrite app_nil_r.
  - simpl Framer.buffer. simpl Framer.contentLength.
    replace (body_of lines ++ last ++ newline)
      with (body_of (lines ++ [last]))
      by (rewrite body_of_app; simpl; now rewrite string_app_nil_r).
    exact Hfull.
Qed.

(** X28: input without a [Content-Length] header is never dispatched.
    Fed with lines of which none matches the header pattern (bare JSON
    followed by blank lines, as the test script of the repository sends
    it), a fresh framer stays in its initial state and emits nothing. *)
Theorem unframed_input_is_ignored srv lines :
  Forall (fun line => Header.content_length line = None) lines ->
  read_lines string_to_integer JSON_parse (Framer.init, srv) lines
  = (Framer.init, srv, []).
Proof.
  induction 1 as [|line lines Hline _ IH]; [reflexivity|].
  rewrite read_lines_cons. unfold on_line. simpl negb. cbv iota.
  rewrite Hline. simpl Framer.contentLength.
  change (0 <? 0) with false.
  destruct (JsString.is_empty (JsString.trim line)); now rewrite IH.
Qed.

End FramerMore.

Lemma frame_is_dispatched_witness :
  read_lines (fun _ => 0) (fun _ => None) (Framer.init, Server.mk ∅ [])
    ("content-length: 4" :: EmptyString :: ["{"] ++ ["}"])
  = (Framer.init, Server.mk ∅ [], [Send parse_error]).
Proof.
  apply (frame_is_dispatched (fun _ => 0) (fun _ => None) (Server.mk ∅ [])
           "content-length: 4" 4 ["{"] "}");
    [reflexivity | lia | vm_compute; reflexivity | vm_compute; discriminate].
Defined.

Lemma unframed_input_is_ignored_witness :
  read_lines (fun _ => 0) (fun _ => Some JNull) (Framer.init, Server.mk ∅ [])
    ["{}"; ""; ""]
  = (Framer.init, Server.mk ∅ [], []).
Proof.
  apply (unframed_input_is_ignored (fun _ => 0) (fun _ => Some JNull)).
  repeat constructor.
Defined.

(** *** Reading the announced length *)

Lemma digits_of_uint d : forall acc,
  Header.digits acc (NilEmpty.string_of_uint d) = Some (uint_value acc d).
Proof.
  induction d; intros acc; simpl; try reflexivity;
    rewrite <- IHd; reflexivity.
Qed.

Lemma uint_value_of_acc d : forall p : positive,
  Z.pos (Pos.of_uint_acc d p) = uint_value (Z.pos p) d.
Proof.
  induction d; intros p; simpl; try reflexivity;
    rewrite IHd; f_equal; lia.
Qed.

Lemma uint_value_of_uint d : Z.of_N (Pos.of_uint d) = uint_value 0 d.
Proof.
  induction d; simpl; try reflexivity; try exact IHd;
    rewrite uint_value_of_acc; reflexivity.
Qed.

Lemma string_of_uint_starts_with_digit d :
  d <> Decimal.Nil ->
  exists a rest,
    NilEmpty.string_of_uint d = String a rest /\ JsString.is_ws a = false.
Proof.
  destruct d; [congruence| | | | | | | | | |]; intros _; simpl;
    eexists _, _; (split; [reflexivity|reflexivity]).
Qed.

(** X29: the header pattern reads back a length written in decimal, as
    far as doubles are exact.  For every [n] from 0 to 2^53, the line made
    of [Content-Length:], a space and the decimal digits of [n] sets the
    expected length to [n]; the digits of 2^53 + 1 set it to 2^53. *)
Theorem content_length_reads_decimal (n : Z) :
  0 <= n <= 2 ^ 53 ->
  Header.content_length ("Content-Length: " ++ JsString.of_Z n) = Some n
  /\ Header.content_length "Content-Length: 9007199254740993"
     = Some 9007199254740992.
Proof.
  intros Hn. split; [|reflexivity]. unfold Header.content_length.
  change (Header.strip_ci "Content-Length:"
            ("Content-Length: " ++ JsString.of_Z n))
    with (Some (" " ++ JsString.of_Z n)).
  cbv iota beta.
  destruct n as [|p|p]; [reflexivity| |lia].
  unfold JsString.of_Z. simpl Z.to_int. unfold NilZero.string_of_int.
  pose proof (Unsigned.to_uint_nonnil p) as Hnil.
  assert (Hstr : NilZero.string_of_uint (Pos.to_uint p)
                 = NilEmpty.string_of_uint (Pos.to_uint p)).
  { unfold NilZero.string_of_uint. now destruct (Pos.to_uint p). }
  rewrite Hstr.
  destruct (string_of_uint_starts_with_digit _ Hnil) as (a & rest & Hs & Ha).
  assert (Htrim : JsString.trimStart (NilEmpty.string_of_uint (Pos.to_uint p))
                  = NilEmpty.string_of_uint (Pos.to_uint p)).
  { rewrite Hs. simpl. now rewrite Ha. }
  change (JsString.trimStart (" " ++ NilEmpty.string_of_uint (Pos.to_uint p)))
    with (JsString.trimStart (NilEmpty.string_of_uint (Pos.to_uint p))).
  rewrite Htrim, Hs. cbv iota. rewrite <- Hs.
  unfold Header.parseInt. rewrite digits_of_uint.
  rewrite <- uint_value_of_uint, Unsigned.of_to.
  change (Some (Header.to_double (Z.pos p)) = Some (Z.pos p)).
  unfold Header.to_double.
  destruct (Z.leb_spec (Z.pos p) (2 ^ 53)); [reflexivity | lia].
Qed.

Lemma content_length_reads_decimal_witness :
  Header.content_length "Content-Length: 1024" = Some 1024.
Proof.
  apply (content_length_reads_decimal 1024). lia.
Defined.
